(** * merge_duplicate_positions: a shallow embedding of the management command

    Source: [src/app/management/commands/merge_duplicate_positions.py].

    The command enumerates every [Position] row, groups the rows by
    [(person_id, org_id, semester, year)], and for each group with more than
    one row keeps the row that comes first after a sort on [pos] and deletes
    the others, unless one of the rows to delete has [is_admin] set, in which
    case it raises [ValueError].  Without [--dry-run] the whole of
    [_process_duplicates] runs inside [transaction.atomic()].

    Modelling choices.
    - The table is a [list Position] in the order [Position.objects.all()]
      enumerates it.  Python integers are [Z], [semester] is a [string].
    - [defaultdict(list)] and the dict comprehension keep insertion order, so
      the dictionary is an association list ([Groups]).
    - [sorted(..., key=lambda p: p.pos)] is a stable sort; it is embedded as a
      stable insertion sort, and [stable_sort_unique] shows that every stable
      sort on [pos] returns the same list.
    - The command runs in a small state-and-exception monad [M] over [World]
      (the table, what was written to [self.stdout], and the ids passed to
      [Position.delete]).  [transaction.atomic()] restores the table when its
      body raises.
    - [pos.delete()] can raise (a row protected by a foreign key, a database
      error): which rows the store refuses to delete is the parameter
      [delete_fails]; a refused delete leaves the table as it is and raises
      [DeleteError], which the [except] clause of lines 101-107 reports and
      re-raises.
    - [self.stdout.write] of an f-string is a [Message] constructor that
      carries the interpolated values.
    - [app.models] is not part of the sources.  [group_display] interpolates
      [str] of the rows that [NaturalPerson.objects.get(id=person_id)] and
      [Organization.objects.get(id=org_id)] return; [person_id] and [org_id]
      are foreign keys, so the rows exist, and what [str] gives for them is
      taken as the parameters [person_str] and [org_str]. *)

From stdpp Require Import base decidable numbers list strings pretty sorting.

(** ** Data model *)

(** [app.models.Position], restricted to the fields the command reads. *)
Record Position := mkPosition {
  id : Z;
  person_id : Z;
  org_id : Z;
  semester : string;
  year : Z;
  pos : Z;
  is_admin : bool
}.

#[global] Instance Position_eq_dec : EqDecision Position.
Proof. solve_decision. Defined.

(** The dictionary key [tuple[int, int, str, int]]. *)
Abbreviation Key := (Z * Z * string * Z)%type.

(** An insertion-ordered [dict[Key, list[Position]]]. *)
Abbreviation Groups := (list (Key * list Position)).

(** Lines 136-141: the tuple built from one row. *)
Definition group_key (position : Position) : Key :=
  (person_id position, org_id position, semester position, year position).

(** The exceptions the command can raise: the [ValueError] of line 78, with
    the [group_display] and the number of admin rows its message
    interpolates, the [IndexError] of [positions_sorted[0]] on an empty
    list, and whatever [pos.delete()] raises when the store refuses the row
    with the given id. *)
Inductive Exception :=
  | ValueError (group_display : string) (found : nat)
  | IndexError
  | DeleteError (row_id : Z).

(** What [self.stdout.write] receives, one constructor per f-string. *)
Inductive Message :=
  | DryRunMode
  | NoDuplicatesFound
  | FoundGroups (n : nat)
  | ProcessingGroup (group_display : string)
  | FoundDuplicatePositions (n : nat)
  | ErrorAdminPositions (n : nat)
  | RollingBack
  | KeepingPosition (keep_id keep_pos : Z)
  | DeletingPositions (n : nat)
  | ErrorProcessingGroup (k : Key) (e : Exception)
  | DryRunSummary (total_merged total_deleted : nat)
  | SuccessSummary (total_merged total_deleted : nat).

(** The table, the output written so far, and the ids for which a
    [DELETE] was issued (in order). *)
Record World := mkWorld {
  db : list Position;
  stdout : list Message;
  deleted : list Z
}.

(** ** The monad of the command *)

Definition M (A : Type) : Type := World → World * (Exception + A).

#[global] Instance M_ret : MRet M := λ A a w, (w, inr a).

#[global] Instance M_bind : MBind M := λ A B f m w,
  match m w with
  | (w', inr a) => f a w'
  | (w', inl e) => (w', inl e)
  end.

Definition raise {A} (e : Exception) : M A := λ w, (w, inl e).

(** [self.stdout.write(...)]. *)
Definition write (msg : Message) : M unit := λ w,
  (mkWorld (db w) (stdout w ++ [msg]) (deleted w), inr tt).

(** [Position.objects.all()], iterated. *)
Definition objects_all : M (list Position) := λ w, (w, inr (db w)).

(** A [for] loop whose body updates local variables [s]. *)
Fixpoint for_each {A S} (body : A → S → M S) (l : list A) (s : S) : M S :=
  match l with
  | [] => mret s
  | a :: l' => s' ← body a s; for_each body l' s'
  end.

(** [try: m  except Exception as e: on_error(e); raise]. *)
Definition try_reraise {A} (m : M A) (on_error : Exception → M unit) : M A :=
  λ w,
    match m w with
    | (w', inl e) => (fst (on_error e w'), inl e)
    | r => r
    end.

(** [with transaction.atomic(): m]: the table is restored when [m] raises;
    what was written to the output stays written. *)
Definition atomic {A} (m : M A) : M A := λ w,
  match m w with
  | (w', inl e) => (mkWorld (db w) (stdout w') (deleted w'), inl e)
  | r => r
  end.

(** ** find_duplicates *)

(** [duplicates[group_key].append(position)] on a [defaultdict(list)]. *)
Fixpoint dict_append (k : Key) (p : Position) (d : Groups) : Groups :=
  match d with
  | [] => [(k, [p])]
  | (k', v) :: d' =>
      if decide (k' = k) then (k', v ++ [p]) :: d'
      else (k', v) :: dict_append k p d'
  end.

(** Lines 130-142: the loop that fills the dictionary. *)
Definition group_positions (positions : list Position) : Groups :=
  foldl (λ duplicates position,
           dict_append (group_key position) position duplicates) [] positions.

(** Lines 125-145. *)
Definition find_duplicates : M Groups :=
  positions ← objects_all;
  mret (filter (λ kv, 1 < length kv.2) (group_positions positions)).

(** ** _process_duplicates *)

(** [sorted(positions, key=lambda p: p.pos)]: stable, ascending. *)
Fixpoint insert_sorted (p : Position) (l : list Position) : list Position :=
  match l with
  | [] => [p]
  | q :: l' =>
      if decide (pos p ≤ pos q)%Z then p :: q :: l'
      else q :: insert_sorted p l'
  end.

Definition sorted (positions : list Position) : list Position :=
  foldr insert_sorted [] positions.

(** Lines 65-66. *)
Definition admin_positions_to_delete (positions : list Position)
  : list Position :=
  filter (λ p, is_admin p = true) (tail (sorted positions)).

(** Lines 83-84. *)
Definition keep_position (positions : list Position) : option Position :=
  head (sorted positions).

Definition delete_positions (positions : list Position) : list Position :=
  tail (sorted positions).

(** ** Definitions used to state and prove the properties *)

(** The dictionary that [find_duplicates] returns for a table. *)
Definition duplicate_groups (table : list Position) : Groups :=
  filter (λ kv, 1 < length kv.2) (group_positions table).

(** [d.get(k, [])]. *)
Fixpoint dict_get (k : Key) (d : Groups) : list Position :=
  match d with
  | [] => []
  | (k', v) :: d' => if decide (k' = k) then v else dict_get k d'
  end.

(** Keys are unique and no value is empty. *)
Definition dict_wf (d : Groups) : Prop :=
  NoDup d.*1 ∧ Forall (λ kv, kv.2 ≠ []) d.

Definition pos_le (p q : Position) : Prop := (pos p ≤ pos q)%Z.

(** The table after [DELETE] was issued for every row of [ps]. *)
Definition delete_all (ps : list Position) (table : list Position)
  : list Position :=
  filter (λ q, id q ∉ id <$> ps) table.

(** The rows deleted for a list of groups, in the order of the calls. *)
Definition deletions (groups : Groups) : list Position :=
  groups ≫= λ g, delete_positions g.2.

(** A group the loop merges: more than one row, no admin row to delete. *)
Definition mergeable (g : Key * list Position) : Prop :=
  1 < length g.2 ∧ admin_positions_to_delete g.2 = [].

(** A group at which the loop raises. *)
Definition violating (g : Key * list Position) : Prop :=
  1 < length g.2 ∧ admin_positions_to_delete g.2 ≠ [].

(** Line 21. *)
Definition preamble (dry_run : bool) : list Message :=
  if dry_run then [DryRunMode] else [].

(** Lines 112-123. *)
Definition summary (dry_run : bool) (groups : Groups) : Message :=
  (if dry_run then DryRunSummary else SuccessSummary)
    (length groups) (sum_list_with (λ g, length g.2 - 1) groups).

(** The output of a run without [--dry-run], read as the output of a dry
    run: only the wording of the summary line differs. *)
Definition dry_view (msg : Message) : Message :=
  match msg with
  | SuccessSummary total_merged total_deleted =>
      DryRunSummary total_merged total_deleted
  | _ => msg
  end.

(** The claim C2 makes about ties, as a property of one group of a table. *)
Definition tie_keeps_min_id (table : list Position) (k : Key)
    (g : list Position) : Prop :=
  (k, g) ∈ duplicate_groups table →
  ∀ keep q, keep_position g = Some keep →
            q ∈ g → pos q = pos keep → (id keep ≤ id q)%Z.

(** The rows of the table that carry the key of [p], in table order. *)
Definition group_of (table : list Position) (p : Position) : list Position :=
  filter (λ q, group_key q = group_key p) table.

(** No key has two rows that both attain the least [pos] of the key. *)
Definition least_pos_unique (table : list Position) : Prop :=
  ∀ p q, p ∈ table → q ∈ table → group_key q = group_key p →
         (∀ r, r ∈ table → group_key r = group_key p
               → (pos p ≤ pos r)%Z ∧ (pos q ≤ pos r)%Z) →
         p = q.

(** ** Concrete tables *)

(** Stand-ins for [str] of a person and of an organisation. *)
Definition person_name (i : Z) : string := "P" +:+ pretty i.

(** Two persons may have the same name. *)
Definition same_name (i : Z) : string := "Li".

(** A store that accepts every deletion, and one that refuses the row
    with id 3. *)
Definition no_refusal (p : Position) : bool := false.

Definition refuses_3 (p : Position) : bool := bool_decide (id p = 3%Z).

(** A store that refuses the row with id 1. *)
Definition refuses_1 (p : Position) : bool := bool_decide (id p = 1%Z).

Definition org_name (i : Z) : string := "O" +:+ pretty i.

Definition row (i person r : Z) (a : bool) : Position :=
  mkPosition i person 20 "Fall" 2024 r a.

Definition key_of (person : Z) : Key := (person, 20, "Fall", 2024)%Z.

(** Three groups: the first is merged, the second has an admin row to
    delete (and an admin row that is kept), the third is never reached. *)
Definition table_violation : list Position :=
  [row 1 10 3 false; row 2 10 1 false;
   row 3 11 2 false; row 4 11 1 true; row 5 11 5 true;
   row 6 12 1 false; row 7 12 2 false].

Definition group_10 : Key * list Position :=
  (key_of 10, [row 1 10 3 false; row 2 10 1 false]).

Definition group_11 : Key * list Position :=
  (key_of 11, [row 3 11 2 false; row 4 11 1 true; row 5 11 5 true]).

Definition group_12 : Key * list Position :=
  (key_of 12, [row 6 12 1 false; row 7 12 2 false]).

(** One group whose kept row is an admin row, and a row with a key of its
    own. *)
Definition table_merge : list Position :=
  [row 1 10 3 false; row 2 10 1 true; row 3 10 2 false; row 4 11 7 false].

Definition group_merge : Key * list Position :=
  (key_of 10, [row 1 10 3 false; row 2 10 1 true; row 3 10 2 false]).

Definition world_merged : World :=
  mkWorld [row 2 10 1 true; row 4 11 7 false]
    [FoundGroups 1; ProcessingGroup "P10 in O20 (2024 Fall)";
     FoundDuplicatePositions 3; KeepingPosition 2 1; DeletingPositions 2;
     SuccessSummary 1 2]
    [3; 1]%Z.

(** A group in which two rows have the least [pos]; the one enumerated
    first has the larger id. *)
Definition table_tie : list Position :=
  [row 3 10 4 false; row 2 10 1 false; row 1 10 1 false].

(** What the dry run leaves for [table_merge]. *)
Definition world_dry : World :=
  mkWorld table_merge
    [DryRunMode; FoundGroups 1; ProcessingGroup "P10 in O20 (2024 Fall)";
     FoundDuplicatePositions 3; KeepingPosition 2 1; DeletingPositions 2;
     DryRunSummary 1 2]
    [].

(** The rows of [table_merge], enumerated in another order. *)
Definition table_merge_reordered : list Position :=
  [row 4 11 7 false; row 3 10 2 false; row 1 10 3 false; row 2 10 1 true].

(** What the run without [--dry-run] leaves for [table_merge] when the
    store refuses the row with id 3, the first row it is asked to delete. *)
Definition world_refused : World :=
  mkWorld table_merge
    [FoundGroups 1; ProcessingGroup "P10 in O20 (2024 Fall)";
     FoundDuplicatePositions 3; KeepingPosition 2 1; DeletingPositions 2;
     ErrorProcessingGroup (key_of 10) (DeleteError 3)]
    [3%Z].

(** Two tables of one group each, with an admin row to delete; the two
    groups differ in the person of their key. *)
Definition table_li_10 : list Position :=
  [row 1 10 1 false; row 2 10 2 true].

Definition table_li_11 : list Position :=
  [row 1 11 1 false; row 2 11 2 true].

(** What the run writes for [table_li_10] and for [table_li_11] when both
    persons are displayed as ["Li"]. *)
Definition li_log : list Message :=
  [FoundGroups 1; ProcessingGroup "Li in O20 (2024 Fall)";
   FoundDuplicatePositions 2; ErrorAdminPositions 1; RollingBack].

(** ** The command *)

Section Command.

(** [str(NaturalPerson.objects.get(id=person_id))] and
    [str(Organization.objects.get(id=org_id))]. *)
Variable person_str : Z → string.
Variable org_str : Z → string.

(** The rows that the store refuses to delete. *)
Variable delete_fails : Position → bool.

(** [pos.delete()]: [DELETE FROM position WHERE id = pos.id], which raises
    when the store refuses the row. *)
Definition Position_delete (p : Position) : M unit := λ w,
  if delete_fails p then
    (mkWorld (db w) (stdout w) (deleted w ++ [id p]), inl (DeleteError (id p)))
  else
    (mkWorld (filter (λ q, id q ≠ id p) (db w)) (stdout w)
       (deleted w ++ [id p]),
     inr tt).

(** Lines 53-57: [f"{person} in {org} ({year} {semester})"]. *)
Definition group_display (k : Key) : string :=
  let '(person_id, org_id, semester, year) := k in
  person_str person_id +:+ " in " +:+ org_str org_id
  +:+ " (" +:+ pretty year +:+ " " +:+ semester +:+ ")".

(** The body of the loop of line 48; [totals] is
    [(total_merged, total_deleted)]. *)
Definition process_group (dry_run : bool) (group : Key * list Position)
    (totals : nat * nat) : M (nat * nat) :=
  let '(k, positions) := group in
  let '(total_merged, total_deleted) := totals in
  if decide (length positions ≤ 1) then mret totals
  else
    _ ← write (ProcessingGroup (group_display k));
    _ ← write (FoundDuplicatePositions (length positions));
    let to_delete := admin_positions_to_delete positions in
    if decide (to_delete ≠ []) then
      _ ← write (ErrorAdminPositions (length to_delete));
      _ ← write RollingBack;
      raise (ValueError (group_display k) (length to_delete))
    else
      match keep_position positions with
      | None => raise IndexError
      | Some keep =>
          _ ← write (KeepingPosition (id keep) (pos keep));
          _ ← write (DeletingPositions (length (delete_positions positions)));
          if negb dry_run then
            try_reraise
              (total_deleted' ←
                 for_each (λ p n, _ ← Position_delete p; mret (n + 1))
                          (delete_positions positions) total_deleted;
               mret (total_merged + 1, total_deleted'))
              (λ e, write (ErrorProcessingGroup k e))
          else
            mret (total_merged + 1,
                  total_deleted + length (delete_positions positions))
      end.

(** Lines 32-123. *)
Definition _process_duplicates (dry_run : bool) : M unit :=
  duplicates ← find_duplicates;
  if decide (duplicates = []) then write NoDuplicatesFound
  else
    _ ← write (FoundGroups (length duplicates));
    totals ← for_each (process_group dry_run) duplicates (0, 0);
    if dry_run then write (DryRunSummary totals.1 totals.2)
    else write (SuccessSummary totals.1 totals.2).

(** Lines 17-30. *)
Definition handle (dry_run : bool) : M unit :=
  _ ← (if dry_run then write DryRunMode else mret tt);
  if negb dry_run then atomic (_process_duplicates dry_run)
  else _process_duplicates dry_run.

(** A run of the command on a table, from an empty output. *)
Definition run (dry_run : bool) (table : list Position)
  : World * (Exception + unit) :=
  handle dry_run (mkWorld table [] []).

(** What is written for a group that is merged. *)
Definition merge_log (g : Key * list Position) : list Message :=
  match keep_position g.2 with
  | Some keep =>
      [ProcessingGroup (group_display g.1);
       FoundDuplicatePositions (length g.2);
       KeepingPosition (id keep) (pos keep);
       DeletingPositions (length (delete_positions g.2))]
  | None => []
  end.

(** What is written for a group that raises. *)
Definition violation_log (g : Key * list Position) : list Message :=
  [ProcessingGroup (group_display g.1); FoundDuplicatePositions (length g.2);
   ErrorAdminPositions (length (admin_positions_to_delete g.2)); RollingBack].

(** The store accepts the deletion of every row of [ps]. *)
Definition accepts (ps : list Position) : Prop :=
  Forall (λ p, delete_fails p = false) ps.

(** The first row of [ps] that the store refuses is [c], after [ps1]. *)
Definition refused_at (ps ps1 : list Position) (c : Position) : Prop :=
  (∃ ps2, ps = ps1 ++ c :: ps2) ∧ accepts ps1 ∧ delete_fails c = true.

(** ** Grouping *)

Lemma find_duplicates_eq (w : World) :
  find_duplicates w = (w, inr (duplicate_groups (db w))).
Proof. reflexivity. Qed.

Lemma dict_get_append (k k' : Key) (p : Position) (d : Groups) :
  dict_get k' (dict_append k p d)
  = if decide (k = k') then dict_get k' d ++ [p] else dict_get k' d.
Proof.
  induction d as [|[k0 v0] d IH]; simpl.
  - repeat case_decide; congruence.
  - destruct (decide (k0 = k)) as [->|Hne]; simpl.
    + repeat case_decide; congruence.
    + rewrite IH. repeat case_decide; congruence.
Qed.

Lemma dict_append_keys (k : Key) (p : Position) (d : Groups) :
  (dict_append k p d).*1 = if decide (k ∈ d.*1) then d.*1 else d.*1 ++ [k].
Proof.
  induction d as [|[k0 v0] d IH]; [done|].
  cbn [dict_append].
  destruct (decide (k0 = k)) as [->|Hne]; rewrite !fmap_cons; cbn [fst].
  - rewrite decide_True; [done | by left].
  - rewrite IH. destruct (decide (k ∈ d.*1)) as [Hin|Hnin].
    + rewrite decide_True; [done | by right].
    + rewrite decide_False; [done |].
      rewrite elem_of_cons. intros [?|?]; congruence.
Qed.

Lemma dict_append_nonempty (k : Key) (p : Position) (d : Groups) :
  Forall (λ kv, kv.2 ≠ []) d →
  Forall (λ kv, kv.2 ≠ []) (dict_append k p d).
Proof.
  induction 1 as [|[k0 v0] d Hx Hd IH]; simpl.
  - by repeat constructor.
  - case_decide; constructor; simpl; auto.
    by destruct v0.
Qed.

Lemma dict_append_wf (k : Key) (p : Position) (d : Groups) :
  dict_wf d → dict_wf (dict_append k p d).
Proof.
  intros [Hnd Hne]. split; [|by apply dict_append_nonempty].
  rewrite dict_append_keys. case_decide as Hin; [done|].
  apply NoDup_app. split_and!; [done | | apply NoDup_singleton].
  intros x Hx ->%list_elem_of_singleton. done.
Qed.

Lemma elem_of_dict_wf (d : Groups) (k : Key) (v : list Position) :
  dict_wf d → (k, v) ∈ d ↔ v = dict_get k d ∧ v ≠ [].
Proof.
  induction d as [|[k0 v0] d IH]; intros [Hnd Hne]; simpl.
  - rewrite elem_of_nil. split; [done | by intros [-> ?]].
  - simpl in Hnd. apply NoDup_cons in Hnd as [Hk0 Hnd].
    apply Forall_cons in Hne as [Hv0 Hne]. simpl in Hv0.
    rewrite elem_of_cons, IH by done.
    destruct (decide (k0 = k)) as [->|Hneq].
    + split.
      * intros [[= ->]|[-> Hv]]; [done|].
        exfalso. apply Hk0.
        assert ((k, dict_get k d) ∈ d) as Hin by (apply IH; done).
        apply (list_elem_of_fmap_2 fst) in Hin. done.
      * intros [-> _]. by left.
    + split; [intros [[= ? ?]|?]; [congruence | done] | by right].
Qed.

Lemma group_positions_from (d : Groups) (l : list Position) (k : Key) :
  dict_get k
    (foldl (λ duplicates position,
              dict_append (group_key position) position duplicates) d l)
  = dict_get k d ++ filter (λ p, group_key p = k) l.
Proof.
  revert d. induction l as [|p l IH]; intros d; simpl.
  - by rewrite app_nil_r.
  - rewrite IH, dict_get_append, filter_cons.
    case_decide; [by rewrite <- app_assoc | done].
Qed.

Lemma group_positions_wf_from (d : Groups) (l : list Position) :
  dict_wf d →
  dict_wf (foldl (λ duplicates position,
                    dict_append (group_key position) position duplicates) d l).
Proof.
  revert d. induction l as [|p l IH]; intros d Hd; simpl; [done|].
  by apply IH, dict_append_wf.
Qed.

Lemma group_positions_wf (table : list Position) :
  dict_wf (group_positions table).
Proof.
  apply group_positions_wf_from. split; simpl; constructor.
Qed.

Lemma dict_get_group_positions (table : list Position) (k : Key) :
  dict_get k (group_positions table) = filter (λ p, group_key p = k) table.
Proof. unfold group_positions. by rewrite group_positions_from. Qed.

(** An entry of the grouped dictionary is a key with the non-empty list of
    the rows that carry it, in table order. *)
Lemma elem_of_group_positions (table : list Position) (k : Key)
    (g : list Position) :
  (k, g) ∈ group_positions table
  ↔ g = filter (λ p, group_key p = k) table ∧ g ≠ [].
Proof.
  rewrite elem_of_dict_wf by apply group_positions_wf.
  by rewrite dict_get_group_positions.
Qed.

Lemma elem_of_duplicate_groups (table : list Position) (k : Key)
    (g : list Position) :
  (k, g) ∈ duplicate_groups table
  ↔ g = filter (λ p, group_key p = k) table ∧ 1 < length g.
Proof.
  unfold duplicate_groups.
  rewrite list_elem_of_filter, elem_of_group_positions. simpl.
  split; [by intros (Hlen & -> & _) |].
  intros [-> Hlen]. split_and!; [done..|].
  intros Hnil. rewrite Hnil in Hlen. simpl in Hlen. lia.
Qed.

Lemma duplicate_groups_keys_NoDup (table : list Position) :
  NoDup (duplicate_groups table).*1.
Proof.
  unfold duplicate_groups.
  destruct (group_positions_wf table) as [Hnd _].
  revert Hnd. generalize (group_positions table). intros d.
  induction d as [|[k v] d IH]; simpl; [constructor|].
  rewrite NoDup_cons. intros [Hk Hnd].
  rewrite filter_cons. case_decide; simpl; [|by apply IH].
  apply NoDup_cons. split; [|by apply IH].
  intros (kv & Hkv & Hin%list_elem_of_filter)%list_elem_of_fmap.
  apply Hk. apply list_elem_of_fmap. exists kv. tauto.
Qed.

Lemma duplicate_groups_sizes (table : list Position) :
  Forall (λ kv, 1 < length kv.2) (duplicate_groups table).
Proof.
  apply Forall_forall. intros kv Hin.
  by apply list_elem_of_filter in Hin as [? _].
Qed.


(** ** Sorting *)

Lemma insert_sorted_Permutation (p : Position) (l : list Position) :
  insert_sorted p l ≡ₚ p :: l.
Proof.
  induction l as [|q l IH]; simpl; [done|].
  case_decide; [done|]. rewrite IH. apply Permutation_swap.
Qed.

Lemma sorted_Permutation (l : list Position) : sorted l ≡ₚ l.
Proof.
  induction l as [|p l IH]; simpl; [done|].
  by rewrite insert_sorted_Permutation, IH.
Qed.

Lemma length_sorted (l : list Position) : length (sorted l) = length l.
Proof. by rewrite sorted_Permutation. Qed.

Lemma elem_of_sorted (l : list Position) (p : Position) :
  p ∈ sorted l ↔ p ∈ l.
Proof. by rewrite sorted_Permutation. Qed.

Lemma insert_sorted_ascending (p : Position) (l : list Position) :
  StronglySorted pos_le l → StronglySorted pos_le (insert_sorted p l).
Proof.
  induction 1 as [|q l Hl IH Hq]; simpl.
  - by repeat constructor.
  - case_decide as Hpq.
    + constructor; [by constructor|].
      constructor; [done|].
      eapply Forall_impl; [exact Hq|]. unfold pos_le. intros; lia.
    + constructor; [done|].
      rewrite insert_sorted_Permutation. constructor; [|done].
      unfold pos_le. lia.
Qed.

Lemma sorted_ascending (l : list Position) : StronglySorted pos_le (sorted l).
Proof.
  induction l as [|p l IH]; simpl; [constructor|].
  by apply insert_sorted_ascending.
Qed.

(** Stability: rows with the same [pos] keep their relative order. *)
Lemma insert_sorted_stable (v : Z) (p : Position) (l : list Position) :
  filter (λ q, pos q = v) (insert_sorted p l)
  = filter (λ q, pos q = v) (p :: l).
Proof.
  induction l as [|q l IH]; simpl; [done|].
  case_decide as Hpq; [done|].
  rewrite (filter_cons _ q), IH, !filter_cons.
  repeat case_decide; try done; lia.
Qed.

Lemma sorted_stable (v : Z) (l : list Position) :
  filter (λ q, pos q = v) (sorted l) = filter (λ q, pos q = v) l.
Proof.
  induction l as [|p l IH]; simpl; [done|].
  by rewrite insert_sorted_stable, !filter_cons, IH.
Qed.

(** Two ascending lists with the same rows per value of [pos], in the same
    order, are equal: the result of a stable sort on [pos] is determined. *)
Lemma stable_sort_unique (l1 l2 : list Position) :
  StronglySorted pos_le l1 → StronglySorted pos_le l2 →
  (∀ v, filter (λ q, pos q = v) l1 = filter (λ q, pos q = v) l2) →
  l1 = l2.
Proof.
  intros H1. revert l2.
  induction H1 as [|a l1 Hl1 IH Ha]; intros l2 H2 Heq.
  - destruct l2 as [|b l2]; [done|].
    specialize (Heq (pos b)). by rewrite filter_cons_True in Heq.
  - destruct H2 as [|b l2 Hl2 Hb].
    + specialize (Heq (pos a)). by rewrite filter_cons_True in Heq.
    + assert (pos a = pos b) as Hab.
      { assert (a ∈ b :: l2) as Hin.
        { pose proof (Heq (pos a)) as E.
          rewrite filter_cons_True in E by done.
          assert (a ∈ filter (λ q, pos q = pos a) (b :: l2)) as Hf
            by (rewrite <- E; left).
          by apply list_elem_of_filter in Hf as [_ ?]. }
        assert (b ∈ a :: l1) as Hin'.
        { pose proof (Heq (pos b)) as E.
          rewrite (filter_cons_True _ b) in E by done.
          assert (b ∈ filter (λ q, pos q = pos b) (a :: l1)) as Hf
            by (rewrite E; left).
          by apply list_elem_of_filter in Hf as [_ ?]. }
        rewrite Forall_forall in Ha, Hb. unfold pos_le in Ha, Hb.
        apply elem_of_cons in Hin as [->|Hin]; [done|].
        apply elem_of_cons in Hin' as [->|Hin']; [done|].
        specialize (Ha _ Hin'). specialize (Hb _ Hin). lia. }
      assert (a = b) as ->.
      { pose proof (Heq (pos a)) as E.
        rewrite !filter_cons_True in E by done. congruence. }
      f_equal. apply IH; [done|]. intros v. specialize (Heq v).
      rewrite !filter_cons in Heq. case_decide; congruence.
Qed.

(** Any stable ascending rearrangement of [l] is [sorted l]. *)
Lemma sorted_is_the_stable_sort (l l' : list Position) :
  StronglySorted pos_le l' →
  (∀ v, filter (λ q, pos q = v) l' = filter (λ q, pos q = v) l) →
  l' = sorted l.
Proof.
  intros Hs Hst. apply stable_sort_unique; [done | apply sorted_ascending |].
  intros v. by rewrite Hst, sorted_stable.
Qed.

Lemma head_insert_sorted (p : Position) (l : list Position) :
  head (insert_sorted p l)
  = match head l with
    | None => Some p
    | Some q => if decide (pos p ≤ pos q)%Z then Some p else Some q
    end.
Proof. destruct l as [|q l]; simpl; [done|]. by case_decide. Qed.

Lemma sorted_keep_delete (positions : list Position) (keep : Position) :
  keep_position positions = Some keep →
  sorted positions = keep :: delete_positions positions.
Proof.
  unfold keep_position, delete_positions.
  destruct (sorted positions); simpl; congruence.
Qed.

Lemma keep_position_is_Some (positions : list Position) :
  0 < length positions → is_Some (keep_position positions).
Proof.
  intros Hlen. unfold keep_position.
  rewrite <- length_sorted in Hlen.
  destruct (sorted positions); simpl in *; [lia | eauto].
Qed.

Lemma length_delete_positions (positions : list Position) :
  length (delete_positions positions) = length positions - 1.
Proof.
  unfold delete_positions. rewrite <- (length_sorted positions).
  destruct (sorted positions); simpl; lia.
Qed.

(** The row kept is the first row of the list that has the least [pos]:
    every row before it has a strictly larger [pos], no row after it has a
    smaller one. *)
Lemma keep_position_first_min (positions : list Position) (keep : Position) :
  keep_position positions = Some keep →
  ∃ l1 l2, positions = l1 ++ keep :: l2
           ∧ Forall (λ q, (pos keep < pos q)%Z) l1
           ∧ Forall (λ q, (pos keep ≤ pos q)%Z) l2.
Proof.
  unfold keep_position. revert keep.
  induction positions as [|p l IH]; intros keep; simpl; [done|].
  rewrite head_insert_sorted.
  destruct (head (sorted l)) as [m|] eqn:Hm.
  - destruct (IH m eq_refl) as (l1 & l2 & -> & H1 & H2).
    case_decide as Hpm; intros [= <-].
    + exists [], (l1 ++ m :: l2). split_and!; [done | constructor |].
      apply Forall_app. split.
      * eapply Forall_impl; [exact H1|]. simpl. intros; lia.
      * constructor; [done|].
        eapply Forall_impl; [exact H2|]. simpl. intros; lia.
    + exists (p :: l1), l2. split_and!; [done | | done].
      constructor; [lia | done].
  - intros [= <-].
    assert (l = []) as ->.
    { apply length_zero_iff_nil. rewrite <- length_sorted.
      by destruct (sorted l). }
    exists [], []. by split_and!.
Qed.

(** ** The loops in closed form *)

Lemma delete_all_nil (table : list Position) : delete_all [] table = table.
Proof.
  unfold delete_all. induction table as [|q l IH]; [done|].
  rewrite filter_cons_True; [by rewrite IH|]. apply not_elem_of_nil.
Qed.

Lemma delete_all_cons (p : Position) (ps table : list Position) :
  delete_all ps (filter (λ q, id q ≠ id p) table) = delete_all (p :: ps) table.
Proof.
  unfold delete_all. rewrite list_filter_filter.
  apply list_filter_iff. intros q. rewrite fmap_cons, not_elem_of_cons.
  split; intros [? ?]; by split.
Qed.

Lemma delete_all_app (ps1 ps2 table : list Position) :
  delete_all ps2 (delete_all ps1 table) = delete_all (ps1 ++ ps2) table.
Proof.
  unfold delete_all. rewrite list_filter_filter.
  apply list_filter_iff. intros q. rewrite fmap_app, not_elem_of_app.
  split; intros [? ?]; by split.
Qed.

Lemma for_each_app {A S} (body : A → S → M S) (l1 l2 : list A) (s : S)
    (w : World) :
  for_each body (l1 ++ l2) s w
  = (s' ← for_each body l1 s; for_each body l2 s') w.
Proof.
  revert s w. induction l1 as [|a l1 IH]; intros s w; [done|].
  simpl. unfold mbind, M_bind.
  destruct (body a s w) as [w' [e|s']]; [done|]. apply IH.
Qed.

Lemma accepts_app (ps1 ps2 : list Position) :
  accepts (ps1 ++ ps2) ↔ accepts ps1 ∧ accepts ps2.
Proof. apply Forall_app. Qed.

Lemma deletions_cons (g : Key * list Position) (groups : Groups) :
  deletions (g :: groups) = delete_positions g.2 ++ deletions groups.
Proof. done. Qed.


(** Every row is accepted, or there is a first row that is refused. *)
Lemma first_refusal (ps : list Position) :
  accepts ps ∨ ∃ ps1 c, refused_at ps ps1 c.
Proof.
  induction ps as [|p ps [IH|(ps1 & c & [ps2 ->] & Hacc & Hc)]].
  - left. constructor.
  - destruct (delete_fails p) eqn:Hp.
    + right. exists [], p. split_and!; [by exists ps | constructor | done].
    + left. by constructor.
  - destruct (delete_fails p) eqn:Hp.
    + right. exists [], p.
      split_and!; [by eexists | constructor | done].
    + right. exists (p :: ps1), c.
      split_and!; [by exists ps2 | by constructor | done].
Qed.

(** Lines 96-98: the deletions of one group, all accepted. *)
Lemma delete_loop (ps : list Position) (n : nat) (w : World) :
  accepts ps →
  for_each (λ p n, _ ← Position_delete p; mret (n + 1)) ps n w
  = (mkWorld (delete_all ps (db w)) (stdout w) (deleted w ++ (id <$> ps)),
     inr (n + length ps)).
Proof.
  revert n w. induction ps as [|p ps IH]; intros n w Hacc.
  - simpl. rewrite delete_all_nil, app_nil_r, Nat.add_0_r. by destruct w.
  - apply Forall_cons in Hacc as [Hp Hacc].
    cbn [for_each]. unfold mbind at 1. unfold M_bind at 1.
    unfold mbind at 1. unfold M_bind at 1. unfold Position_delete at 1.
    rewrite Hp. unfold mret at 1. unfold M_ret at 1. rewrite IH by done.
    cbn [db stdout deleted].
    rewrite delete_all_cons, <- app_assoc. simpl.
    do 2 f_equal. lia.
Qed.

(** Lines 96-98 when the store refuses a row: the rows before it are
    deleted, the loop stops with the error of the refused row. *)
Lemma delete_loop_refused (ps ps1 : list Position) (c : Position) (n : nat)
    (w : World) :
  refused_at ps ps1 c →
  for_each (λ p n, _ ← Position_delete p; mret (n + 1)) ps n w
  = (mkWorld (delete_all ps1 (db w)) (stdout w)
       (deleted w ++ (id <$> ps1 ++ [c])),
     inl (DeleteError (id c))).
Proof.
  intros ([ps2 ->] & Hacc & Hc).
  rewrite for_each_app. unfold mbind at 1. unfold M_bind at 1.
  rewrite delete_loop by done.
  cbn [for_each]. unfold mbind at 1. unfold M_bind at 1.
  unfold mbind at 1. unfold M_bind at 1. unfold Position_delete at 1.
  rewrite Hc. cbn [db stdout deleted].
  by rewrite fmap_app, <- app_assoc.
Qed.

Lemma process_group_merge (dry_run : bool) (g : Key * list Position)
    (m d : nat) (w : World) :
  mergeable g →
  (dry_run = false → accepts (delete_positions g.2)) →
  process_group dry_run g (m, d) w
  = (mkWorld (if dry_run then db w else delete_all (delete_positions g.2) (db w))
       (stdout w ++ merge_log g)
       (if dry_run then deleted w
        else deleted w ++ (id <$> delete_positions g.2)),
     inr (m + 1, d + length (delete_positions g.2))).
Proof.
  destruct g as [k positions]. intros [Hlen Hadm] Hacc.
  simpl in Hlen, Hadm, Hacc.
  unfold process_group, merge_log. cbn [fst snd].
  rewrite decide_False by lia. rewrite Hadm.
  rewrite decide_False by (intros H; by apply H).
  destruct (keep_position_is_Some positions) as [keep Hkeep]; [lia|].
  rewrite Hkeep.
  destruct dry_run; cbn [negb].
  - unfold mbind, M_bind, mret, M_ret, write. cbn [db stdout deleted].
    by rewrite <- !app_assoc.
  - unfold try_reraise, mbind, M_bind, write. cbn [db stdout deleted].
    rewrite delete_loop by auto. unfold mret, M_ret. cbn [db stdout deleted].
    by rewrite <- !app_assoc.
Qed.

(** Lines 93-107 when the store refuses a row of the group: the [except]
    clause writes its line and the error is raised again. *)
Lemma process_group_refused (g : Key * list Position) (ps1 : list Position)
    (c : Position) (m d : nat) (w : World) :
  mergeable g →
  refused_at (delete_positions g.2) ps1 c →
  process_group false g (m, d) w
  = (mkWorld (delete_all ps1 (db w))
       (stdout w ++ merge_log g
        ++ [ErrorProcessingGroup g.1 (DeleteError (id c))])
       (deleted w ++ (id <$> ps1 ++ [c])),
     inl (DeleteError (id c))).
Proof.
  destruct g as [k positions]. intros [Hlen Hadm] Href.
  simpl in Hlen, Hadm, Href.
  unfold process_group, merge_log. cbn [fst snd].
  rewrite decide_False by lia. rewrite Hadm.
  rewrite decide_False by (intros H; by apply H).
  destruct (keep_position_is_Some positions) as [keep Hkeep]; [lia|].
  rewrite Hkeep. cbn [negb].
  unfold try_reraise, mbind, M_bind, write. cbn [db stdout deleted].
  rewrite (delete_loop_refused _ ps1 c) by done. cbn [db stdout deleted fst].
  by rewrite <- !app_assoc.
Qed.

Lemma process_group_violation (dry_run : bool) (g : Key * list Position)
    (m d : nat) (w : World) :
  violating g →
  process_group dry_run g (m, d) w
  = (mkWorld (db w) (stdout w ++ violation_log g) (deleted w),
     inl (ValueError (group_display g.1)
            (length (admin_positions_to_delete g.2)))).
Proof.
  destruct g as [k positions]. intros [Hlen Hadm]. simpl in Hlen, Hadm.
  unfold process_group, violation_log. cbn [fst snd].
  rewrite decide_False by lia. rewrite decide_True by done.
  unfold mbind, M_bind, write, raise. cbn [db stdout deleted].
  by rewrite <- !app_assoc.
Qed.

(** Line 49: a group with at most one row is skipped.  [find_duplicates]
    returns no such group. *)
Lemma process_group_skip (dry_run : bool) (g : Key * list Position)
    (totals : nat * nat) (w : World) :
  length g.2 ≤ 1 → process_group dry_run g totals w = (w, inr totals).
Proof.
  destruct g as [k positions], totals as [m d]. simpl. intros Hlen.
  unfold process_group. by rewrite decide_True.
Qed.

(** The loop of line 48 over groups that are all merged. *)
Lemma process_groups_merge (dry_run : bool) (groups : Groups) (m d : nat)
    (w : World) :
  Forall mergeable groups →
  (dry_run = false → accepts (deletions groups)) →
  for_each (process_group dry_run) groups (m, d) w
  = (mkWorld (if dry_run then db w else delete_all (deletions groups) (db w))
       (stdout w ++ (groups ≫= merge_log))
       (if dry_run then deleted w else deleted w ++ (id <$> deletions groups)),
     inr (m + length groups,
          d + sum_list_with (λ g, length g.2 - 1) groups)).
Proof.
  intros Hall. revert m d w.
  induction Hall as [|g groups Hg Hall IH]; intros m d w Hacc.
  - simpl. unfold deletions. simpl.
    rewrite delete_all_nil, !app_nil_r, !Nat.add_0_r.
    destruct w, dry_run; done.
  - cbn [for_each]. unfold mbind at 1. unfold M_bind at 1.
    rewrite process_group_merge; [|done|].
    2: { intros Hdry. specialize (Hacc Hdry).
         rewrite deletions_cons in Hacc. by apply accepts_app in Hacc as [? _]. }
    rewrite IH.
    2: { intros Hdry. specialize (Hacc Hdry).
         rewrite deletions_cons in Hacc. by apply accepts_app in Hacc as [_ ?]. }
    cbn [db stdout deleted]. unfold deletions. rewrite !bind_cons.
    rewrite fmap_app, <- !app_assoc, length_delete_positions.
    replace (m + 1 + length groups) with (m + length (g :: groups))
      by (simpl; lia).
    replace (d + (length g.2 - 1)
             + sum_list_with (λ g, length g.2 - 1) groups)
      with (d + sum_list_with (λ g, length g.2 - 1) (g :: groups))
      by (simpl; lia).
    destruct dry_run; by rewrite ?delete_all_app, <- ?app_assoc.
Qed.

(** The loop of line 48 when some group raises: the groups before it are
    merged, the groups after it are not looked at. *)
Lemma process_groups_violation (dry_run : bool) (pre post : Groups)
    (g : Key * list Position) (m d : nat) (w : World) :
  Forall mergeable pre →
  (dry_run = false → accepts (deletions pre)) →
  violating g →
  for_each (process_group dry_run) (pre ++ g :: post) (m, d) w
  = (mkWorld (if dry_run then db w else delete_all (deletions pre) (db w))
       (stdout w ++ (pre ≫= merge_log) ++ violation_log g)
       (if dry_run then deleted w else deleted w ++ (id <$> deletions pre)),
     inl (ValueError (group_display g.1)
            (length (admin_positions_to_delete g.2)))).
Proof.
  intros Hpre Hacc Hg. rewrite for_each_app.
  unfold mbind at 1. unfold M_bind at 1.
  rewrite process_groups_merge by done.
  cbn [for_each]. unfold mbind at 1. unfold M_bind at 1.
  rewrite process_group_violation by done. cbn [db stdout deleted].
  rewrite <- app_assoc. by destruct dry_run.
Qed.

(** The loop of line 48 when the store refuses a row: the groups before are
    merged, the rows of the group before the refused one are deleted, the
    groups after it are not looked at. *)
Lemma process_groups_refused (pre post : Groups) (g : Key * list Position)
    (ps1 : list Position) (c : Position) (m d : nat) (w : World) :
  Forall mergeable pre → accepts (deletions pre) →
  mergeable g → refused_at (delete_positions g.2) ps1 c →
  for_each (process_group false) (pre ++ g :: post) (m, d) w
  = (mkWorld (delete_all (deletions pre ++ ps1) (db w))
       (stdout w ++ (pre ≫= merge_log) ++ merge_log g
          ++ [ErrorProcessingGroup g.1 (DeleteError (id c))])
       (deleted w ++ (id <$> deletions pre ++ ps1 ++ [c])),
     inl (DeleteError (id c))).
Proof.
  intros Hpre Hacc Hg Href. rewrite for_each_app.
  unfold mbind at 1. unfold M_bind at 1.
  rewrite process_groups_merge by done.
  cbn [for_each]. unfold mbind at 1. unfold M_bind at 1.
  rewrite (process_group_refused _ ps1 c) by done. cbn [db stdout deleted].
  by rewrite delete_all_app, !fmap_app, <- !app_assoc.
Qed.

(** Every list of groups of more than one row is merged throughout, or has
    a first group that raises. *)
Lemma first_violation (groups : Groups) :
  Forall (λ g, 1 < length g.2) groups →
  Forall mergeable groups
  ∨ ∃ pre g post, groups = pre ++ g :: post
                  ∧ Forall mergeable pre ∧ violating g.
Proof.
  induction 1 as [|g groups Hg Hall [IH|(pre & g' & post & -> & Hpre & Hg')]].
  - left. constructor.
  - destruct (decide (admin_positions_to_delete g.2 = [])) as [Hadm|Hadm].
    + left. by constructor.
    + right. exists [], g, groups. by split_and!.
  - destruct (decide (admin_positions_to_delete g.2 = [])) as [Hadm|Hadm].
    + right. exists (g :: pre), g', post. split_and!; [done | | done].
      by constructor.
    + right. exists [], g, (pre ++ g' :: post). by split_and!.
Qed.

(** With a store that may refuse rows: every group is merged, or there is a
    first group that raises, or a first group with a refused row. *)
Lemma first_problem (groups : Groups) :
  Forall (λ g, 1 < length g.2) groups →
  (Forall mergeable groups ∧ accepts (deletions groups))
  ∨ (∃ pre g post, groups = pre ++ g :: post
                   ∧ Forall mergeable pre ∧ accepts (deletions pre)
                   ∧ violating g)
  ∨ (∃ pre g post ps1 c, groups = pre ++ g :: post
                         ∧ Forall mergeable pre ∧ accepts (deletions pre)
                         ∧ mergeable g
                         ∧ refused_at (delete_positions g.2) ps1 c).
Proof.
  induction 1 as [|g groups Hg Hall IH].
  - left. split; constructor.
  - destruct (decide (admin_positions_to_delete g.2 = [])) as [Hadm|Hadm].
    2: { right. left. exists [], g, groups. split_and!; try done.
         constructor. }
    destruct (first_refusal (delete_positions g.2))
      as [Hacc|(ps1 & c & Href)].
    2: { right. right. exists [], g, groups, ps1, c.
         split_and!; try done; constructor. }
    assert (mergeable g) as Hmerge by done.
    destruct IH as [[Hm Ha]|[(pre & g' & post & -> & Hpre & Hpa & Hg')
                            |(pre & g' & post & ps1 & c & -> & Hpre & Hpa
                              & Hg' & Href)]].
    + left. split; [by constructor|].
      rewrite deletions_cons. by apply accepts_app.
    + right. left. exists (g :: pre), g', post.
      split_and!; [done | by constructor | | done].
      rewrite deletions_cons. by apply accepts_app.
    + right. right. exists (g :: pre), g', post, ps1, c.
      split_and!; [done | by constructor | | done | done].
      rewrite deletions_cons. by apply accepts_app.
Qed.

(** ** The command in closed form *)

Lemma process_duplicates_none (dry_run : bool) (w : World) :
  duplicate_groups (db w) = [] →
  _process_duplicates dry_run w
  = (mkWorld (db w) (stdout w ++ [NoDuplicatesFound]) (deleted w), inr tt).
Proof.
  intros Hnone. unfold _process_duplicates, mbind, M_bind.
  rewrite find_duplicates_eq, Hnone. by rewrite decide_True.
Qed.

Lemma process_duplicates_merge (dry_run : bool) (w : World) :
  duplicate_groups (db w) ≠ [] →
  Forall mergeable (duplicate_groups (db w)) →
  (dry_run = false → accepts (deletions (duplicate_groups (db w)))) →
  _process_duplicates dry_run w
  = (mkWorld
       (if dry_run then db w
        else delete_all (deletions (duplicate_groups (db w))) (db w))
       (stdout w ++ FoundGroups (length (duplicate_groups (db w)))
                    :: (duplicate_groups (db w) ≫= merge_log)
                    ++ [summary dry_run (duplicate_groups (db w))])
       (if dry_run then deleted w
        else deleted w ++ (id <$> deletions (duplicate_groups (db w)))),
     inr tt).
Proof.
  intros Hsome Hall Hacc. unfold _process_duplicates, mbind, M_bind.
  rewrite find_duplicates_eq. rewrite decide_False by done.
  unfold write at 1. rewrite process_groups_merge by done.
  cbn [db stdout deleted fst snd]. unfold summary.
  destruct dry_run; unfold write; cbn [db stdout deleted];
    by rewrite <- !app_assoc.
Qed.

Lemma process_duplicates_violation (dry_run : bool) (w : World)
    (pre post : Groups) (g : Key * list Position) :
  duplicate_groups (db w) = pre ++ g :: post →
  Forall mergeable pre →
  (dry_run = false → accepts (deletions pre)) →
  violating g →
  _process_duplicates dry_run w
  = (mkWorld
       (if dry_run then db w else delete_all (deletions pre) (db w))
       (stdout w ++ FoundGroups (length (pre ++ g :: post))
                    :: (pre ≫= merge_log) ++ violation_log g)
       (if dry_run then deleted w else deleted w ++ (id <$> deletions pre)),
     inl (ValueError (group_display g.1)
            (length (admin_positions_to_delete g.2)))).
Proof.
  intros Hgroups Hpre Hacc Hg. unfold _process_duplicates, mbind, M_bind.
  rewrite find_duplicates_eq, Hgroups.
  rewrite decide_False by (by destruct pre).
  unfold write at 1. rewrite process_groups_violation by done.
  cbn [db stdout deleted]. by rewrite <- !app_assoc.
Qed.

Lemma process_duplicates_refused (w : World) (pre post : Groups)
    (g : Key * list Position) (ps1 : list Position) (c : Position) :
  duplicate_groups (db w) = pre ++ g :: post →
  Forall mergeable pre → accepts (deletions pre) →
  mergeable g → refused_at (delete_positions g.2) ps1 c →
  _process_duplicates false w
  = (mkWorld
       (delete_all (deletions pre ++ ps1) (db w))
       (stdout w ++ FoundGroups (length (pre ++ g :: post))
                    :: (pre ≫= merge_log) ++ merge_log g
                    ++ [ErrorProcessingGroup g.1 (DeleteError (id c))])
       (deleted w ++ (id <$> deletions pre ++ ps1 ++ [c])),
     inl (DeleteError (id c))).
Proof.
  intros Hgroups Hpre Hacc Hg Href. unfold _process_duplicates, mbind, M_bind.
  rewrite find_duplicates_eq, Hgroups.
  rewrite decide_False by (by destruct pre).
  unfold write at 1. rewrite (process_groups_refused _ _ _ ps1 c) by done.
  cbn [db stdout deleted]. by rewrite <- !app_assoc.
Qed.

Lemma run_none (dry_run : bool) (table : list Position) :
  duplicate_groups table = [] →
  run dry_run table
  = (mkWorld table (preamble dry_run ++ [NoDuplicatesFound]) [], inr tt).
Proof.
  intros Hnone. unfold run, handle, mbind, M_bind, atomic.
  destruct dry_run; simpl; by rewrite process_duplicates_none.
Qed.

Lemma run_merge (dry_run : bool) (table : list Position) :
  duplicate_groups table ≠ [] →
  Forall mergeable (duplicate_groups table) →
  (dry_run = false → accepts (deletions (duplicate_groups table))) →
  run dry_run table
  = (mkWorld
       (if dry_run then table
        else delete_all (deletions (duplicate_groups table)) table)
       (preamble dry_run
          ++ FoundGroups (length (duplicate_groups table))
             :: (duplicate_groups table ≫= merge_log)
             ++ [summary dry_run (duplicate_groups table)])
       (if dry_run then [] else id <$> deletions (duplicate_groups table)),
     inr tt).
Proof.
  intros Hsome Hall Hacc. unfold run, handle, mbind, M_bind, atomic.
  destruct dry_run; simpl; by rewrite process_duplicates_merge.
Qed.

Lemma run_violation (dry_run : bool) (table : list Position)
    (pre post : Groups) (g : Key * list Position) :
  duplicate_groups table = pre ++ g :: post →
  Forall mergeable pre →
  (dry_run = false → accepts (deletions pre)) →
  violating g →
  run dry_run table
  = (mkWorld table
       (preamble dry_run
          ++ FoundGroups (length (pre ++ g :: post))
             :: (pre ≫= merge_log) ++ violation_log g)
       (if dry_run then [] else id <$> deletions pre),
     inl (ValueError (group_display g.1)
            (length (admin_positions_to_delete g.2)))).
Proof.
  intros Hgroups Hpre Hacc Hg. unfold run, handle, mbind, M_bind, atomic.
  destruct dry_run; simpl;
    by rewrite (process_duplicates_violation _ _ pre post g).
Qed.

(** Without [--dry-run], when the store refuses a row: the error of the
    refused row is raised and the table is restored. *)
Lemma run_refused (table : list Position) (pre post : Groups)
    (g : Key * list Position) (ps1 : list Position) (c : Position) :
  duplicate_groups table = pre ++ g :: post →
  Forall mergeable pre → accepts (deletions pre) →
  mergeable g → refused_at (delete_positions g.2) ps1 c →
  run false table
  = (mkWorld table
       (FoundGroups (length (pre ++ g :: post))
          :: (pre ≫= merge_log) ++ merge_log g
          ++ [ErrorProcessingGroup g.1 (DeleteError (id c))])
       (id <$> deletions pre ++ ps1 ++ [c]),
     inl (DeleteError (id c))).
Proof.
  intros Hgroups Hpre Hacc Hg Href. unfold run, handle, mbind, M_bind, atomic.
  simpl. by rewrite (process_duplicates_refused _ pre post g ps1 c).
Qed.

(** The ways a run can go. *)
Lemma run_cases (dry_run : bool) (table : list Position) :
  duplicate_groups table = []
  ∨ (duplicate_groups table ≠ []
     ∧ Forall mergeable (duplicate_groups table)
     ∧ (dry_run = false → accepts (deletions (duplicate_groups table))))
  ∨ (∃ pre g post, duplicate_groups table = pre ++ g :: post
                   ∧ Forall mergeable pre
                   ∧ (dry_run = false → accepts (deletions pre))
                   ∧ violating g)
  ∨ (dry_run = false
     ∧ ∃ pre g post ps1 c, duplicate_groups table = pre ++ g :: post
                           ∧ Forall mergeable pre ∧ accepts (deletions pre)
                           ∧ mergeable g
                           ∧ refused_at (delete_positions g.2) ps1 c).
Proof.
  destruct (decide (duplicate_groups table = [])) as [|Hsome]; [by left|].
  right. destruct dry_run.
  - destruct (first_violation (duplicate_groups table))
      as [Hall|(pre & g & post & ? & ? & ?)].
    + apply duplicate_groups_sizes.
    + left. by split_and!.
    + right. left. exists pre, g, post. by split_and!.
  - destruct (first_problem (duplicate_groups table))
      as [[Hall Hacc]|[(pre & g & post & ? & ? & ? & ?)
                      |(pre & g & post & ps1 & c & ? & ? & ? & ? & ?)]].
    + apply duplicate_groups_sizes.
    + left. by split_and!.
    + right. left. exists pre, g, post. by split_and!.
    + right. right. split; [done|]. by exists pre, g, post, ps1, c.
Qed.

(** ** Groups and the table *)

Lemma elem_of_duplicate_group (table : list Position) (k : Key)
    (g : list Position) (p : Position) :
  (k, g) ∈ duplicate_groups table → p ∈ g → p ∈ table ∧ group_key p = k.
Proof.
  intros [-> _]%elem_of_duplicate_groups Hp.
  apply list_elem_of_filter in Hp. destruct Hp; by split.
Qed.

Lemma elem_of_delete_positions (positions : list Position) (c : Position) :
  c ∈ delete_positions positions → c ∈ positions.
Proof.
  unfold delete_positions. intros Hc. apply elem_of_sorted.
  destruct (sorted positions); [done | by right].
Qed.

Lemma elem_of_deletions (groups : Groups) (c : Position) :
  c ∈ deletions groups ↔ ∃ g, g ∈ groups ∧ c ∈ delete_positions g.2.
Proof.
  unfold deletions. rewrite list_elem_of_bind.
  split; intros (g & ? & ?); by exists g.
Qed.

Lemma length_deletions (groups : Groups) :
  length (deletions groups) = sum_list_with (λ g, length g.2 - 1) groups.
Proof.
  unfold deletions. induction groups as [|g groups IH]; [done|].
  rewrite bind_cons, length_app, length_delete_positions, IH. done.
Qed.

Lemma mergeable_not_admin (g : Key * list Position) (c : Position) :
  admin_positions_to_delete g.2 = [] →
  c ∈ delete_positions g.2 → is_admin c = false.
Proof.
  unfold admin_positions_to_delete, delete_positions. intros Hnil Hc.
  destruct (is_admin c) eqn:Hadm; [|done].
  by destruct (filter_nil_not_elem_of _ _ c Hnil Hadm).
Qed.

Lemma violating_admin (g : Key * list Position) :
  admin_positions_to_delete g.2 ≠ [] ↔
  ∃ c, c ∈ delete_positions g.2 ∧ is_admin c = true.
Proof.
  unfold admin_positions_to_delete, delete_positions. split.
  - destruct (filter _ _) as [|c l] eqn:Hf; [done|]. intros _.
    exists c. assert (c ∈ filter (λ p, is_admin p = true)
                          (tail (sorted g.2))) as Hin by (rewrite Hf; left).
    apply list_elem_of_filter in Hin. destruct Hin; by split.
  - intros (c & Hc & Hadm) Hnil.
    by destruct (filter_nil_not_elem_of _ _ c Hnil Hadm).
Qed.

(** The groups before the first one that raises are merged. *)
Lemma split_at_violation (table : list Position) (pre post : Groups)
    (g : Key * list Position) :
  duplicate_groups table = pre ++ g :: post →
  Forall (λ g', admin_positions_to_delete g'.2 = []) pre →
  admin_positions_to_delete g.2 ≠ [] →
  Forall mergeable pre ∧ violating g.
Proof.
  intros Hgroups Hpre Hg.
  pose proof (duplicate_groups_sizes table) as Hsizes.
  rewrite Hgroups in Hsizes.
  apply Forall_app in Hsizes as [Hs1 Hs2].
  apply Forall_cons in Hs2 as [Hs2 _].
  split; [|done].
  rewrite Forall_forall in Hs1, Hpre |- *. intros g' Hg'. split; auto.
Qed.

(** The primary key identifies a row. *)
Lemma id_inj (table : list Position) (p q : Position) :
  NoDup (id <$> table) → p ∈ table → q ∈ table → id p = id q → p = q.
Proof.
  induction table as [|r table IH]; [by intros _ ?%elem_of_nil|].
  rewrite fmap_cons, NoDup_cons, !elem_of_cons.
  intros [Hr Hnd] [->|Hp] [->|Hq] Heq; auto.
  - destruct Hr. rewrite Heq. by apply list_elem_of_fmap_2.
  - destruct Hr. rewrite <- Heq. by apply list_elem_of_fmap_2.
Qed.


Lemma elem_of_delete_all (ps table : list Position) (p : Position) :
  p ∈ delete_all ps table ↔ (id p ∉ id <$> ps) ∧ p ∈ table.
Proof. unfold delete_all. by rewrite list_elem_of_filter. Qed.

(** ** Properties of the command *)



Lemma refused_in_table (table : list Position) (pre post : Groups)
    (g : Key * list Position) (ps1 : list Position) (c : Position) :
  duplicate_groups table = pre ++ g :: post →
  refused_at (delete_positions g.2) ps1 c →
  c ∈ table ∧ delete_fails c = true.
Proof.
  intros Hgroups ([ps2 Hps] & _ & Hc). split; [|done].
  destruct g as [k l]. eapply (elem_of_duplicate_group table k l).
  - rewrite Hgroups, elem_of_app. right. left.
  - apply elem_of_delete_positions. simpl in Hps. rewrite Hps, elem_of_app.
    right. left.
Qed.


(** C3.  Without [--dry-run], when the groups [pre] are merged (none has an
    admin row to delete and the store accepts their deletions) and the next
    group [g] has an admin row to delete, the run raises [ValueError] for
    [g] and the table after the run is the table before it, although a
    [DELETE] was issued for every row to delete of every group of [pre]:
    [_process_duplicates] alone leaves the table without those rows (a
    different table as soon as [pre] is not empty), and
    [transaction.atomic()] restores it. *)
Theorem C3_violation_rolls_back_all_deletions (table : list Position)
    (pre post : Groups) (g : Key * list Position) :
  duplicate_groups table = pre ++ g :: post →
  Forall (λ g', admin_positions_to_delete g'.2 = []) pre →
  accepts (deletions pre) →
  admin_positions_to_delete g.2 ≠ [] →
  ∃ w w_inner,
    run false table
    = (w, inl (ValueError (group_display g.1)
                 (length (admin_positions_to_delete g.2))))
    ∧ db w = table
    ∧ _process_duplicates false (mkWorld table [] [])
      = (w_inner, inl (ValueError (group_display g.1)
                         (length (admin_positions_to_delete g.2))))
    ∧ db w_inner = delete_all (deletions pre) table
    ∧ deleted w = id <$> deletions pre
    ∧ length (deleted w) = sum_list_with (λ g', length g'.2 - 1) pre
    ∧ (pre ≠ [] → db w_inner ≠ table).
Proof.
  intros Hgroups Hpre Hacc Hg.
  destruct (split_at_violation _ _ _ _ Hgroups Hpre Hg) as [Hpre' Hg'].
  rewrite (run_violation _ _ _ _ _ Hgroups Hpre' (λ _, Hacc) Hg').
  rewrite (process_duplicates_violation false (mkWorld table [] [])
             pre post g Hgroups Hpre' (λ _, Hacc) Hg').
  do 2 eexists. split_and!; try done; simpl.
  - by rewrite length_fmap, length_deletions.
  - destruct pre as [|[k0 g0] pre]; [done|]. intros _ Heq.
    apply Forall_cons in Hpre' as [[Hlen _] _]. simpl in Hlen.
    pose proof (length_delete_positions g0) as Hdel.
    destruct (delete_positions g0) as [|c cs] eqn:Hcs; [simpl in Hdel; lia|].
    assert (c ∈ delete_positions g0) as Hc by (rewrite Hcs; left).
    assert (c ∈ table) as Hc_tab.
    { eapply (elem_of_duplicate_group table k0 g0).
      - rewrite Hgroups. left.
      - by apply elem_of_delete_positions. }
    rewrite <- Heq in Hc_tab. apply elem_of_delete_all in Hc_tab as [Hno _].
    apply Hno. apply list_elem_of_fmap_2, elem_of_deletions.
    exists (k0, g0). split; [left | done].
Qed.

Lemma dry_view_merge_log (groups : Groups) :
  dry_view <$> (groups ≫= merge_log) = groups ≫= merge_log.
Proof.
  induction groups as [|g groups IH]; [done|].
  rewrite bind_cons, fmap_app, IH. f_equal.
  unfold merge_log. by destruct (keep_position g.2).
Qed.

(** The dry run changes nothing and asks the store for nothing. *)
Lemma dry_run_unchanged (table : list Position) :
  db (run true table).1 = table
  ∧ deleted (run true table).1 = []
  ∧ ∀ i, (run true table).2 ≠ inl (DeleteError i).
Proof.
  destruct (run_cases true table)
    as [Hnone|[(Hsome & Hall & Hacc)
              |[(pre & g & post & Hgroups & Hpre & Hacc & Hg)
               |(? & _)]]]; [| | |done].
  - by rewrite (run_none _ _ Hnone).
  - by rewrite (run_merge _ _ Hsome Hall Hacc).
  - by rewrite (run_violation _ _ _ _ _ Hgroups Hpre Hacc Hg).
Qed.

(** C4, amended.  On every table the dry run issues no [DELETE], leaves the
    table as it was and never ends with an error of the store.  Whenever
    the run without [--dry-run] is not stopped by the store refusing a
    deletion, the two runs end the same way (both return, or both raise the
    same [ValueError] with the same group and count) and write the same
    lines (groups found, group processed, row kept, number of rows to
    delete, admin rows found), the dry run after its [DryRunMode] line and
    with its own wording of the summary, and the number of deletions the dry
    run announces is the number of [DELETE]s the other run issues.  When the
    store refuses a row of the table, the run without [--dry-run] raises
    the error of that row and restores the table. *)
Theorem C4_dry_run_parity (table : list Position) :
  ∃ w_dry w_real r_dry r_real,
    run true table = (w_dry, r_dry)
    ∧ run false table = (w_real, r_real)
    ∧ db w_dry = table
    ∧ deleted w_dry = []
    ∧ (∀ i, r_dry ≠ inl (DeleteError i))
    ∧ ((∀ i, r_real ≠ inl (DeleteError i))
       → r_real = r_dry
         ∧ stdout w_dry = DryRunMode :: (dry_view <$> stdout w_real)
         ∧ ∀ m d, last (stdout w_dry) = Some (DryRunSummary m d)
                  → last (stdout w_real) = Some (SuccessSummary m d)
                    ∧ d = length (deleted w_real))
    ∧ (∀ i, r_real = inl (DeleteError i)
       → db w_real = table
         ∧ ∃ c, c ∈ table ∧ id c = i ∧ delete_fails c = true).
Proof.
  destruct (dry_run_unchanged table) as (Hdb & Hdel & Herr).
  exists (run true table).1, (run false table).1,
         (run true table).2, (run false table).2.
  split; [by destruct (run true table)|].
  split; [by destruct (run false table)|].
  split; [done|]. split; [done|]. split; [done|].
  clear Hdb Hdel Herr.
  destruct (run_cases false table)
    as [Hnone|[(Hsome & Hall & Hacc)
              |[(pre & g & post & Hgroups & Hpre & Hacc & Hg)
               |(_ & pre & g & post & ps1 & c & Hgroups & Hpre & Hacc
                 & Hg & Href)]]].
  - rewrite !(run_none _ _ Hnone). by split_and!.
  - rewrite (run_merge true _ Hsome Hall) by done.
    rewrite (run_merge false _ Hsome Hall Hacc). simpl.
    split; [|done]. intros _. split_and!; try done.
    + by rewrite fmap_app, dry_view_merge_log.
    + intros m d. rewrite app_comm_cons, last_snoc.
      unfold summary. intros [= <- <-]. split.
      * by rewrite app_comm_cons, last_snoc.
      * by rewrite length_fmap, length_deletions.
  - rewrite (run_violation true _ _ _ _ Hgroups Hpre) by done.
    rewrite (run_violation false _ _ _ _ Hgroups Hpre Hacc Hg). simpl.
    split; [|done]. intros _. split_and!; try done.
    + by rewrite fmap_app, dry_view_merge_log.
    + intros m d. unfold violation_log.
      rewrite app_comm_cons, last_app. simpl. done.
  - rewrite (run_refused _ _ _ _ _ _ Hgroups Hpre Hacc Hg Href). simpl.
    split.
    + intros Hno. by destruct (Hno (id c)).
    + intros i [= <-]. split; [done|].
      destruct (refused_in_table _ _ _ _ _ _ Hgroups Href) as [Hc Hfail].
      by exists c.
Qed.

(** ** After a run that merged every group *)

Lemma length_filter_mono (P Q : Position → Prop)
    `{∀ x, Decision (P x)} `{∀ x, Decision (Q x)} (l : list Position) :
  (∀ x, P x → Q x) → length (filter P l) ≤ length (filter Q l).
Proof.
  intros HPQ. induction l as [|x l IH]; [done|].
  rewrite !filter_cons. repeat case_decide; simpl; try lia.
  exfalso. auto.
Qed.

Lemma filter_none (P : Position → Prop) `{∀ x, Decision (P x)}
    (l : list Position) :
  (∀ x, x ∈ l → ¬ P x) → filter P l = [].
Proof.
  induction l as [|x l IH]; intros Hl; [done|].
  rewrite filter_cons_False by (apply Hl; left).
  apply IH. intros y Hy. apply Hl. by right.
Qed.

(** Of a group, at most the row kept is left once its rows to delete are
    deleted. *)
Lemma group_after_delete (g : list Position) :
  length (filter (λ q, id q ∉ id <$> delete_positions g) g) ≤ 1.
Proof.
  assert (∀ ids : list Z,
            length (filter (λ q, id q ∉ ids) g)
            = length (filter (λ q, id q ∉ ids) (sorted g))) as ->.
  { intros ids. apply Permutation_length. by rewrite sorted_Permutation. }
  unfold delete_positions.
  destruct (sorted g) as [|keep cs]; [simpl; lia|]. simpl.
  rewrite filter_cons.
  rewrite (filter_none _ cs).
  - case_decide; simpl; lia.
  - intros c Hc Hno. apply Hno. by apply list_elem_of_fmap_2.
Qed.

Lemma keys_after_merge (table : list Position) (k : Key) :
  length (filter (λ p, group_key p = k)
            (delete_all (deletions (duplicate_groups table)) table)) ≤ 1.
Proof.
  set (g := filter (λ p, group_key p = k) table).
  unfold delete_all. rewrite list_filter_filter.
  rewrite (list_filter_iff _
             (λ q, (id q ∉ id <$> deletions (duplicate_groups table))
                   ∧ group_key q = k)) by (intros; split; intros [? ?]; by split).
  rewrite <- list_filter_filter. fold g.
  destruct (decide (1 < length g)) as [Hlen|Hlen].
  - assert ((k, g) ∈ duplicate_groups table) as Hin
      by (by apply elem_of_duplicate_groups).
    etrans; [|apply (group_after_delete g)].
    apply length_filter_mono. intros q Hq (c & Hid & Hc)%list_elem_of_fmap.
    apply Hq. apply list_elem_of_fmap. exists c. split; [done|].
    apply elem_of_deletions. by exists (k, g).
  - etrans; [apply length_filter|]. lia.
Qed.

Lemma keys_NoDup (l : list Position) :
  (∀ k, length (filter (λ p, group_key p = k) l) ≤ 1) →
  NoDup (group_key <$> l).
Proof.
  induction l as [|p l IH]; intros Hl; [constructor|].
  rewrite fmap_cons. apply NoDup_cons. split.
  - intros (q & Hkey & Hq)%list_elem_of_fmap.
    specialize (Hl (group_key p)).
    rewrite filter_cons_True in Hl by done. simpl in Hl.
    assert (q ∈ filter (λ r, group_key r = group_key p) l) as Hin
      by (by apply list_elem_of_filter).
    destruct (filter _ l); [by apply elem_of_nil in Hin | simpl in Hl; lia].
  - apply IH. intros k. specialize (Hl k). rewrite filter_cons in Hl.
    case_decide; simpl in Hl; lia.
Qed.

Lemma duplicate_groups_nil (l : list Position) :
  duplicate_groups l = [] ↔
  ∀ k, length (filter (λ p, group_key p = k) l) ≤ 1.
Proof.
  split.
  - intros Hnil k.
    destruct (decide (1 < length (filter (λ p, group_key p = k) l)))
      as [Hlen|Hlen]; [|lia].
    assert ((k, filter (λ p, group_key p = k) l) ∈ duplicate_groups l) as Hin
      by (by apply elem_of_duplicate_groups).
    rewrite Hnil in Hin. by apply elem_of_nil in Hin.
  - intros Hl. destruct (duplicate_groups l) as [|[k g] d] eqn:Hd; [done|].
    assert ((k, g) ∈ duplicate_groups l) as Hin by (rewrite Hd; left).
    apply elem_of_duplicate_groups in Hin as [-> Hlen].
    specialize (Hl k). lia.
Qed.

(** C6.  When the run without [--dry-run] returns, no two rows left in the
    table have the same key, [find_duplicates] finds no group in that table,
    and a second run on it writes [NoDuplicatesFound], issues no [DELETE] and
    leaves the table as it is. *)
Theorem C6_second_run_finds_nothing (table : list Position) (w : World) :
  run false table = (w, inr tt) →
  NoDup (group_key <$> db w)
  ∧ find_duplicates w = (w, inr [])
  ∧ run false (db w) = (mkWorld (db w) [NoDuplicatesFound] [], inr tt).
Proof.
  intros Hrun.
  assert (∀ k, length (filter (λ p, group_key p = k) (db w)) ≤ 1) as Hkeys.
  { destruct (run_cases false table)
      as [Hnone|[(Hsome & Hall & Hacc)
                |[(pre & g & post & Hgroups & Hpre & Hacc & Hg)
                 |(_ & pre & g & post & ps1 & c & Hgroups & Hpre & Hacc
                   & Hg & Href)]]].
    - rewrite (run_none _ _ Hnone) in Hrun. injection Hrun as <-. simpl.
      by apply duplicate_groups_nil.
    - rewrite (run_merge _ _ Hsome Hall Hacc) in Hrun. injection Hrun as <-.
      simpl. apply keys_after_merge.
    - by rewrite (run_violation _ _ _ _ _ Hgroups Hpre Hacc Hg) in Hrun.
    - by rewrite (run_refused _ _ _ _ _ _ Hgroups Hpre Hacc Hg Href)
        in Hrun. }
  pose proof (proj2 (duplicate_groups_nil (db w)) Hkeys) as Hnil.
  split_and!.
  - by apply keys_NoDup.
  - by rewrite find_duplicates_eq, Hnil.
  - by rewrite (run_none _ _ Hnil).
Qed.

(** ** The group at which a run stops *)

Lemma refused_not_accepted (ps ps1 : list Position) (c : Position) :
  refused_at ps ps1 c → c ∈ ps ∧ ¬ accepts ps.
Proof.
  intros ([ps2 ->] & _ & Hc). split.
  - rewrite elem_of_app. right. left.
  - intros [_ Hacc]%accepts_app. apply Forall_cons in Hacc as [Hc' _].
    congruence.
Qed.

(** C7, amended.  In either mode, when the groups [pre] are merged (none
    has an admin row to delete and, without [--dry-run], the store accepts
    their deletions) and the next group has an admin row to delete, the run
    raises [ValueError] with the display of that group, which is [str] of
    the person, [" in "], [str] of the organisation and the year and the
    semester of the key in parentheses, and with the number of admin rows
    among the rows to delete of the group; what is written ends with the two
    error lines for the group; the groups after it play no part (the loop
    gives the same result whatever follows, and no [DELETE] is issued other
    than those of [pre]); and the table after the run is the table before
    it. *)
Theorem C7_violation_stops_the_run (dry_run : bool) (table : list Position)
    (pre post : Groups) (person org : Z) (sem : string) (yr : Z)
    (positions : list Position) :
  duplicate_groups table
  = pre ++ ((person, org, sem, yr), positions) :: post →
  Forall (λ g', admin_positions_to_delete g'.2 = []) pre →
  (dry_run = false → accepts (deletions pre)) →
  admin_positions_to_delete positions ≠ [] →
  ∃ w,
    run dry_run table
    = (w, inl (ValueError
                 (person_str person +:+ " in " +:+ org_str org
                  +:+ " (" +:+ pretty yr +:+ " " +:+ sem +:+ ")")
                 (length (filter (λ c, is_admin c = true)
                            (delete_positions positions)))))
    ∧ stdout w
      = preamble dry_run
        ++ FoundGroups
             (length (pre ++ ((person, org, sem, yr), positions) :: post))
           :: (pre ≫= merge_log)
           ++ [ProcessingGroup
                 (person_str person +:+ " in " +:+ org_str org
                  +:+ " (" +:+ pretty yr +:+ " " +:+ sem +:+ ")");
               FoundDuplicatePositions (length positions);
               ErrorAdminPositions
                 (length (filter (λ c, is_admin c = true)
                            (delete_positions positions)));
               RollingBack]
    ∧ (∀ post' totals w0,
         for_each (process_group dry_run)
           (pre ++ ((person, org, sem, yr), positions) :: post') totals w0
         = for_each (process_group dry_run)
             (pre ++ [((person, org, sem, yr), positions)]) totals w0)
    ∧ deleted w = (if dry_run then [] else id <$> deletions pre)
    ∧ db w = table.
Proof.
  intros Hgroups Hpre Hacc Hg.
  destruct (split_at_violation _ _ _ _ Hgroups Hpre Hg) as [Hpre' Hg'].
  rewrite (run_violation _ _ _ _ _ Hgroups Hpre' Hacc Hg').
  eexists. split_and!; try done.
  intros post' [m d] w0.
  by rewrite !process_groups_violation.
Qed.

(** C8.  For a group of more than one row whose kept row is an admin row
    (so the group has one admin row more than its rows to delete have): the
    group raises [ValueError] exactly when some row other than the kept one
    is an admin row, and the number it then reports counts those rows only;
    the only other way it can raise is the store refusing one of its rows
    to delete; when no other row is an admin row and the store accepts the
    deletions, the group is merged, one group and [length positions - 1]
    rows are added to the totals, and without [--dry-run] the [DELETE]s
    issued are those of the other rows. *)
Theorem C8_admin_survivor_is_legal (dry_run : bool) (k : Key)
    (positions : list Position) (keep : Position) (m d : nat) (w : World) :
  1 < length positions →
  keep_position positions = Some keep →
  is_admin keep = true →
  sorted positions = keep :: delete_positions positions
  ∧ keep ∈ positions
  ∧ length (filter (λ c, is_admin c = true) positions)
    = S (length (filter (λ c, is_admin c = true)
                   (delete_positions positions)))
  ∧ ((∃ w' s n, process_group dry_run (k, positions) (m, d) w
                = (w', inl (ValueError s n)))
     ↔ ∃ c, c ∈ delete_positions positions ∧ is_admin c = true)
  ∧ ((dry_run = false → accepts (delete_positions positions))
     → ((∃ w' e, process_group dry_run (k, positions) (m, d) w = (w', inl e))
        ↔ ∃ c, c ∈ delete_positions positions ∧ is_admin c = true))
  ∧ (∀ w' e, process_group dry_run (k, positions) (m, d) w = (w', inl e)
             → e = ValueError (group_display k)
                     (length (filter (λ c, is_admin c = true)
                                (delete_positions positions)))
               ∨ (dry_run = false
                  ∧ ∃ c, c ∈ delete_positions positions
                         ∧ delete_fails c = true ∧ e = DeleteError (id c)))
  ∧ ((∀ c, c ∈ delete_positions positions → is_admin c = false)
     → (dry_run = false → accepts (delete_positions positions))
     → ∃ w', process_group dry_run (k, positions) (m, d) w
             = (w', inr (m + 1, d + (length positions - 1)))
             ∧ deleted w'
               = deleted w
                 ++ (if dry_run then []
                     else id <$> delete_positions positions)).
Proof.
  intros Hlen Hkeep Hadm.
  pose proof (sorted_keep_delete _ _ Hkeep) as Hsorted.
  split; [done|]. split.
  { apply elem_of_sorted. rewrite Hsorted. left. }
  split.
  { rewrite <- (Permutation_length
                  (filter_Permutation (λ c, is_admin c = true) _ _
                     (sorted_Permutation positions))).
    rewrite Hsorted. by rewrite filter_cons_True. }
  destruct (decide (admin_positions_to_delete positions = []))
    as [Hnil|Hsome].
  - assert (mergeable (k, positions)) as Hmerge by done.
    assert (¬ ∃ c, c ∈ delete_positions positions ∧ is_admin c = true)
      as Hno.
    { intros Hc%(violating_admin (k, positions)). done. }
    assert ((dry_run = false → accepts (delete_positions positions))
            ∨ (dry_run = false
               ∧ ∃ ps1 c, refused_at (delete_positions positions) ps1 c))
      as [Hacc|[-> (ps1 & c & Href)]].
    { destruct dry_run; [by left|].
      destruct (first_refusal (delete_positions positions)) as [?|?];
        [by left | by right]. }
    + rewrite (process_group_merge dry_run (k, positions) m d w Hmerge Hacc).
      split_and!.
      * split; [by intros (? & ? & ? & ?) | done].
      * intros _. split; [by intros (? & ? & ?) | done].
      * by intros ? ? ?.
      * intros _ _. eexists. split.
        -- by rewrite length_delete_positions.
        -- simpl. destruct dry_run; [by rewrite app_nil_r | done].
    + rewrite (process_group_refused (k, positions) ps1 c m d w Hmerge Href).
      destruct (refused_not_accepted _ _ _ Href) as [Hc Hnacc].
      destruct Href as (_ & _ & Hfail).
      split_and!.
      * split; [by intros (? & ? & ? & ?) | done].
      * intros Hacc. by destruct Hnacc; apply Hacc.
      * intros ? ? [= _ <-]. right. split; [done|]. by exists c.
      * intros _ Hacc. by destruct Hnacc; apply Hacc.
  - assert (violating (k, positions)) as Hviol by done.
    rewrite (process_group_violation dry_run (k, positions) m d w Hviol).
    pose proof (proj1 (violating_admin (k, positions)) Hsome) as Hc.
    split_and!.
    + split; [done | by eauto].
    + intros _. split; [done | by eauto].
    + intros ? ? [= _ <-]. by left.
    + intros Hall. exfalso. destruct Hc as (c & Hc & Hc').
      specialize (Hall c Hc). congruence.
Qed.

(** ** The row kept, in table order *)

Lemma filter_split (P : Position → Prop) `{∀ x, Decision (P x)}
    (l l1 l2 : list Position) (x : Position) :
  filter P l = l1 ++ x :: l2 →
  ∃ t1 t2, l = t1 ++ x :: t2 ∧ filter P t1 = l1 ∧ filter P t2 = l2.
Proof.
  revert l1. induction l as [|a l IH]; intros l1 Hf.
  - by destruct l1.
  - rewrite filter_cons in Hf. destruct (decide (P a)) as [Ha|Ha].
    + destruct l1 as [|b l1]; simpl in Hf.
      * injection Hf as -> <-. by exists [], l.
      * injection Hf as <- Hf.
        destruct (IH _ Hf) as (t1 & t2 & -> & <- & <-).
        exists (a :: t1), t2. by rewrite filter_cons_True.
    + destruct (IH _ Hf) as (t1 & t2 & -> & <- & <-).
      exists (a :: t1), t2. by rewrite filter_cons_False.
Qed.

(** The row kept for a group is the first row of the table that has the key
    of the group and the least [pos] among the rows with that key. *)
Lemma keep_position_in_table (table : list Position) (k : Key)
    (g : list Position) (keep : Position) :
  (k, g) ∈ duplicate_groups table →
  keep_position g = Some keep →
  ∃ t1 t2,
    table = t1 ++ keep :: t2
    ∧ group_key keep = k
    ∧ (∀ q, q ∈ t1 → group_key q = k → (pos keep < pos q)%Z)
    ∧ (∀ q, q ∈ t2 → group_key q = k → (pos keep ≤ pos q)%Z).
Proof.
  intros Hg Hkeep.
  destruct (keep_position_first_min _ _ Hkeep) as (l1 & l2 & Hsplit & H1 & H2).
  apply elem_of_duplicate_groups in Hg as [Hfilter _].
  rewrite Hsplit in Hfilter. symmetry in Hfilter.
  destruct (filter_split _ _ _ _ _ Hfilter) as (t1 & t2 & -> & <- & <-).
  exists t1, t2. rewrite Forall_forall in H1, H2. split_and!.
  - done.
  - assert (keep ∈ filter (λ p, group_key p = k) (t1 ++ keep :: t2)) as Hin.
    { rewrite Hfilter, elem_of_app. right. left. }
    apply list_elem_of_filter in Hin. by destruct Hin.
  - intros q Hq Hk. apply H1. by apply list_elem_of_filter.
  - intros q Hq Hk. apply H2. by apply list_elem_of_filter.
Qed.

(** C9.  The row kept for a group is the first row, in the order the table
    is enumerated, among the rows of the group with the least [pos]: every
    row of the group enumerated before it has a larger [pos], none has a
    smaller one; the sort keeps rows of equal [pos] in the order of
    enumeration.  Two enumerations of the same two rows of equal [pos] keep
    different rows (as the dry run announces, and as the table shows after
    the run without [--dry-run] when the store accepts the deletion). *)
Theorem C9_tie_keeps_first_enumerated (table : list Position) (k : Key)
    (g : list Position) (keep : Position) :
  (k, g) ∈ duplicate_groups table →
  keep_position g = Some keep →
  (∃ t1 t2,
     table = t1 ++ keep :: t2
     ∧ group_key keep = k
     ∧ (∀ q, q ∈ t1 → group_key q = k → (pos keep < pos q)%Z)
     ∧ (∀ q, q ∈ t2 → group_key q = k → (pos keep ≤ pos q)%Z))
  ∧ (∀ v, filter (λ q, pos q = v) (sorted g)
          = filter (λ q, group_key q = k ∧ pos q = v) table)
  ∧ ∃ a b,
      a ≠ b ∧ pos a = pos b ∧ group_key a = group_key b
      ∧ keep_position [a; b] = Some a ∧ keep_position [b; a] = Some b
      ∧ KeepingPosition (id a) (pos a) ∈ stdout (run true [a; b]).1
      ∧ KeepingPosition (id b) (pos b) ∈ stdout (run true [b; a]).1
      ∧ (delete_fails b = false → (run false [a; b]).1.(db) = [a])
      ∧ (delete_fails a = false → (run false [b; a]).1.(db) = [b]).
Proof.
  intros Hg Hkeep. split_and!.
  - by eapply keep_position_in_table.
  - intros v. apply elem_of_duplicate_groups in Hg as [-> _].
    rewrite sorted_stable, list_filter_filter.
    apply list_filter_iff. intros; split; intros [? ?]; by split.
  - exists (row 1 10 5 false), (row 2 10 5 false).
    split_and!; try done.
    + vm_compute. do 4 right. left.
    + vm_compute. do 4 right. left.
    + intros Hb. vm_compute in Hb |- *. by rewrite Hb.
    + intros Ha. vm_compute in Ha |- *. by rewrite Ha.
Qed.

(** C2, amended.  The row kept for a group has the least [pos] of the
    group; among the rows of the group with that [pos] it is the one the
    table enumerates first, which is the one with the least id when the
    table is enumerated by ascending id; and a run on the same table (here:
    the table a dry run leaves) finds the same group and keeps the same
    row. *)
Theorem C2_survivor_min_pos_first_enumerated (table : list Position)
    (k : Key) (g : list Position) (keep : Position) :
  (k, g) ∈ duplicate_groups table →
  keep_position g = Some keep →
  keep ∈ g
  ∧ (∀ q, q ∈ g → (pos keep ≤ pos q)%Z)
  ∧ (∃ i, table !! i = Some keep
          ∧ ∀ j q, table !! j = Some q → group_key q = k
                   → pos q = pos keep → i ≤ j)
  ∧ (StronglySorted (λ a b, (id a < id b)%Z) table
     → ∀ q, q ∈ g → pos q = pos keep → (id keep ≤ id q)%Z)
  ∧ ∃ w r, run true table = (w, r)
           ∧ (k, g) ∈ duplicate_groups (db w)
           ∧ ∀ keep', keep_position g = Some keep' → keep' = keep.
Proof.
  intros Hg Hkeep.
  destruct (keep_position_in_table _ _ _ _ Hg Hkeep)
    as (t1 & t2 & Htable & Hkey & H1 & H2).
  assert (∀ q, q ∈ g ↔ group_key q = k ∧ q ∈ table) as Hmem.
  { intros q.
    destruct (proj1 (elem_of_duplicate_groups _ _ _) Hg) as [Hfilter _].
    rewrite Hfilter at 1. by rewrite list_elem_of_filter. }
  assert (keep ∈ table) as Hin
    by (rewrite Htable, elem_of_app; right; left).
  split_and!.
  - by apply Hmem.
  - intros q [Hq Hq_in]%Hmem. rewrite Htable in Hq_in.
    apply elem_of_app in Hq_in as [?|[->|?]%elem_of_cons];
      [apply Z.lt_le_incl | |]; auto. lia.
  - exists (length t1). split.
    + rewrite Htable. by apply list_lookup_middle.
    + intros j q Hj Hq Hpos.
      destruct (decide (length t1 ≤ j)) as [|Hlt]; [done|]. exfalso.
      rewrite Htable, lookup_app_l in Hj by lia.
      apply list_elem_of_lookup_2 in Hj. specialize (H1 q Hj Hq). lia.
  - intros Hsorted q [Hq Hq_in]%Hmem Hpos.
    rewrite Htable in Hq_in, Hsorted.
    apply elem_of_app in Hq_in as [Hq1|[->|Hq2]%elem_of_cons].
    + specialize (H1 q Hq1 Hq). lia.
    + done.
    + apply StronglySorted_app_1_r in Hsorted.
      apply StronglySorted_inv in Hsorted as [_ Hall].
      rewrite Forall_forall in Hall. specialize (Hall q Hq2). lia.
  - destruct (dry_run_unchanged table) as (Hdb & _ & _).
    exists (run true table).1, (run true table).2.
    split; [by destruct (run true table)|].
    rewrite Hdb. split; [done | congruence].
Qed.

(** ** The summary line *)

Lemma merge_log_lines (groups : Groups) (msg : Message) :
  msg ∈ groups ≫= merge_log →
  match msg with
  | ProcessingGroup _ | FoundDuplicatePositions _
  | KeepingPosition _ _ | DeletingPositions _ => True
  | _ => False
  end.
Proof.
  intros (g & Hmsg & _)%list_elem_of_bind. unfold merge_log in Hmsg.
  destruct (keep_position g.2); [|by apply elem_of_nil in Hmsg].
  rewrite !elem_of_cons, elem_of_nil in Hmsg.
  destruct Hmsg as [->|[->|[->|[->|[]]]]]; done.
Qed.

(** C10.  When a run returns, in either mode, every summary line it wrote
    carries the number of groups [find_duplicates] returned and the sum of
    their sizes minus one each; such a line is written last whenever there
    is a group, and without [--dry-run] the second number is also the number
    of [DELETE]s issued.  (With no group the run writes
    [NoDuplicatesFound] and no summary.) *)
Theorem C10_summary_counts (dry_run : bool) (table : list Position)
    (w : World) :
  run dry_run table = (w, inr tt) →
  (∀ m d, DryRunSummary m d ∈ stdout w ∨ SuccessSummary m d ∈ stdout w
          → m = length (duplicate_groups table)
            ∧ d = sum_list_with (λ g, length g.2 - 1)
                    (duplicate_groups table))
  ∧ (duplicate_groups table ≠ []
     → last (stdout w)
       = Some ((if dry_run then DryRunSummary else SuccessSummary)
                 (length (duplicate_groups table))
                 (sum_list_with (λ g, length g.2 - 1)
                    (duplicate_groups table))))
  ∧ (duplicate_groups table = []
     → stdout w = preamble dry_run ++ [NoDuplicatesFound])
  ∧ (dry_run = false
     → length (deleted w)
       = sum_list_with (λ g, length g.2 - 1) (duplicate_groups table)).
Proof.
  intros Hrun.
  destruct (run_cases dry_run table)
    as [Hnone|[(Hsome & Hall & Hacc)
              |[(pre & g & post & Hgroups & Hpre & Hacc & Hg)
               |(-> & pre & g & post & ps1 & c & Hgroups & Hpre & Hacc
                 & Hg & Href)]]].
  - rewrite (run_none _ _ Hnone) in Hrun. injection Hrun as <-. simpl.
    split_and!; [|done|done|by rewrite Hnone].
    intros m d. rewrite !elem_of_app, !list_elem_of_singleton.
    destruct dry_run; simpl; rewrite ?list_elem_of_singleton, ?elem_of_nil;
      intros [[?|?]|[?|?]]; done.
  - rewrite (run_merge _ _ Hsome Hall Hacc) in Hrun. injection Hrun as <-. simpl.
    split_and!.
    + intros m d.
      rewrite !elem_of_app, !elem_of_cons, !elem_of_app,
        !list_elem_of_singleton.
      unfold summary.
      intros [[Hpre|[?|[Hlog|Hsum]]]|[Hpre|[?|[Hlog|Hsum]]]]; try done;
        try (by apply merge_log_lines in Hlog);
        try (destruct dry_run; simpl in Hpre;
             rewrite ?list_elem_of_singleton, ?elem_of_nil in Hpre; done);
        destruct dry_run; by simplify_eq.
    + intros _. by rewrite app_comm_cons, app_assoc, last_snoc.
    + done.
    + intros ->. by rewrite length_fmap, length_deletions.
  - by rewrite (run_violation _ _ _ _ _ Hgroups Hpre Hacc Hg) in Hrun.
  - by rewrite (run_refused _ _ _ _ _ _ Hgroups Hpre Hacc Hg Href) in Hrun.
Qed.

(** ** When the command fails *)

Lemma keys_NoDup_inv (l : list Position) (k : Key) :
  NoDup (group_key <$> l) → length (filter (λ p, group_key p = k) l) ≤ 1.
Proof.
  induction l as [|p l IH]; [intros _; simpl; lia|].
  rewrite fmap_cons, NoDup_cons. intros [Hp Hnd].
  rewrite filter_cons. case_decide as Hk; [|by apply IH].
  rewrite (filter_none _ l); [done|].
  intros q Hq Hqk. apply Hp. rewrite Hk, <- Hqk.
  by apply list_elem_of_fmap_2.
Qed.

Lemma accepts_deletions (groups : Groups) :
  accepts (deletions groups)
  ↔ ∀ c, c ∈ deletions groups → delete_fails c = false.
Proof. unfold accepts. apply Forall_forall. Qed.

(** How a run ends, read off the rows to delete. *)
Lemma run_outcome (dry_run : bool) (table : list Position) :
  ((∃ w, run dry_run table = (w, inr tt))
   ∧ ∀ c, c ∈ deletions (duplicate_groups table)
          → is_admin c = false ∧ (dry_run = false → delete_fails c = false))
  ∨ (∃ w k g,
       run dry_run table
       = (w, inl (ValueError (group_display k)
                    (length (admin_positions_to_delete g))))
       ∧ db w = table
       ∧ (k, g) ∈ duplicate_groups table
       ∧ ∃ c, c ∈ delete_positions g ∧ is_admin c = true)
  ∨ (dry_run = false
     ∧ ∃ w c, run dry_run table = (w, inl (DeleteError (id c)))
              ∧ db w = table
              ∧ c ∈ deletions (duplicate_groups table)
              ∧ is_admin c = false ∧ delete_fails c = true).
Proof.
  destruct (run_cases dry_run table)
    as [Hnone|[(Hsome & Hall & Hacc)
              |[(pre & g & post & Hgroups & Hpre & Hacc & Hg)
               |(-> & pre & g & post & ps1 & c & Hgroups & Hpre & Hacc
                 & Hg & Href)]]].
  - left. rewrite (run_none _ _ Hnone), Hnone. split; [by eexists|].
    intros c Hc. by apply elem_of_nil in Hc.
  - left. rewrite (run_merge _ _ Hsome Hall Hacc). split; [by eexists|].
    intros c Hc. split.
    + apply elem_of_deletions in Hc as (g & Hg & Hc).
      rewrite Forall_forall in Hall. destruct (Hall _ Hg) as [_ Hmerge].
      by apply (mergeable_not_admin g).
    + intros Hdry. specialize (Hacc Hdry).
      rewrite accepts_deletions in Hacc. by apply Hacc.
  - right. left. rewrite (run_violation _ _ _ _ _ Hgroups Hpre Hacc Hg).
    destruct g as [k g]. eexists _, k, g. split_and!; [done | done | |].
    + rewrite Hgroups, elem_of_app. right. left.
    + destruct Hg as [_ Hadm]. by apply (violating_admin (k, g)).
  - right. right. split; [done|].
    rewrite (run_refused _ _ _ _ _ _ Hgroups Hpre Hacc Hg Href).
    destruct (refused_not_accepted _ _ _ Href) as [Hc _].
    eexists _, c. split_and!; [done | done | | |].
    + apply elem_of_deletions. exists g. split; [|done].
      rewrite Hgroups, elem_of_app. right. left.
    + destruct Hg as [_ Hmerge]. by apply (mergeable_not_admin g).
    + by destruct Href as (_ & _ & ?).
Qed.

Lemma run_returns_iff (dry_run : bool) (table : list Position) :
  (∃ w, run dry_run table = (w, inr tt))
  ↔ ∀ c, c ∈ deletions (duplicate_groups table)
         → is_admin c = false ∧ (dry_run = false → delete_fails c = false).
Proof.
  destruct (run_outcome dry_run table)
    as [[Hret Hall]|[(w & k & g & Hrun & _ & Hg & c & Hc & Hadm)
                    |(Hdry & w & c & Hrun & _ & Hc & _ & Hfail)]].
  - done.
  - rewrite Hrun. split; [by intros [? ?]|]. intros Hall. exfalso.
    destruct (Hall c) as [Hno _]; [|congruence].
    apply elem_of_deletions. by exists (k, g).
  - rewrite Hrun. split; [by intros [? ?]|]. intros Hall. exfalso.
    destruct (Hall c Hc) as [_ Hno]. specialize (Hno Hdry). congruence.
Qed.

(** X1.  The command returns exactly when no row to delete of any group is
    an admin row and, without [--dry-run], the store refuses none of these
    rows.  Otherwise it raises, with the table as it was before the run:
    either the [ValueError] of line 78 for a returned group with an admin
    row to delete (with a positive count), or, without [--dry-run] only,
    the error of a row to delete that the store refused.  In particular it
    returns when the table has no admin row and the store refuses none of
    its rows.  (The two [get] calls of lines 54-55 return, [person_id] and
    [org_id] being foreign keys.) *)
Theorem X1_run_returns_iff_nothing_refused (dry_run : bool)
    (table : list Position) :
  ((∃ w, run dry_run table = (w, inr tt))
   ↔ ∀ c, c ∈ deletions (duplicate_groups table)
          → is_admin c = false ∧ (dry_run = false → delete_fails c = false))
  ∧ (∀ w e, run dry_run table = (w, inl e)
            → db w = table
              ∧ ((∃ k g, (k, g) ∈ duplicate_groups table
                         ∧ e = ValueError (group_display k)
                                 (length (admin_positions_to_delete g))
                         ∧ 0 < length (admin_positions_to_delete g))
                 ∨ (dry_run = false
                    ∧ ∃ c, c ∈ deletions (duplicate_groups table)
                           ∧ is_admin c = false ∧ delete_fails c = true
                           ∧ e = DeleteError (id c))))
  ∧ ((∀ p, p ∈ table → is_admin p = false ∧ delete_fails p = false)
     → ∃ w, run dry_run table = (w, inr tt)).
Proof.
  split; [apply run_returns_iff|]. split.
  - intros w e Hrun.
    destruct (run_outcome dry_run table)
      as [[[w' Hret] _]|[(w' & k & g & Hrun' & Hdb & Hg & c & Hc & Hadm)
                        |(Hdry & w' & c & Hrun' & Hdb & Hc & Hadm & Hfail)]].
    + congruence.
    + rewrite Hrun' in Hrun. injection Hrun as <- <-. split; [done|].
      left. exists k, g. split_and!; [done..|].
      pose proof (proj2 (violating_admin (k, g)) (ex_intro _ c (conj Hc Hadm)))
        as Hne. simpl in Hne.
      destruct (admin_positions_to_delete g); [done | simpl; lia].
    + rewrite Hrun' in Hrun. injection Hrun as <- <-. split; [done|].
      right. split; [done|]. by exists c.
  - intros Hall. apply run_returns_iff. intros c Hc.
    assert (c ∈ table) as Hc_tab.
    { apply elem_of_deletions in Hc as ([k g] & Hg & Hc).
      eapply elem_of_duplicate_group; [done|].
      by apply elem_of_delete_positions. }
    destruct (Hall c Hc_tab). auto.
Qed.

(** X2.  Whatever the group, also an empty one or one of a single row, the
    body of the loop never fails at [positions_sorted[0]]: it returns, or it
    raises the [ValueError] of line 78 or the error of a refused deletion.
    A group of at most one row is skipped by the test of line 49 before
    anything is written or indexed. *)
Theorem X2_process_group_never_IndexError (dry_run : bool)
    (group : Key * list Position) (totals : nat * nat) (w : World) :
  (process_group dry_run group totals w).2 ≠ inl IndexError
  ∧ (length group.2 ≤ 1
     → process_group dry_run group totals w = (w, inr totals))
  ∧ (1 < length group.2
     → ∃ keep, keep_position group.2 = Some keep
               ∧ ProcessingGroup (group_display group.1)
                 ∈ stdout (process_group dry_run group totals w).1).
Proof.
  destruct totals as [m d].
  destruct (decide (length group.2 ≤ 1)) as [Hskip|Hlen].
  - rewrite (process_group_skip _ _ _ _ Hskip). split_and!; [done | done |].
    intros ?. lia.
  - destruct (keep_position_is_Some group.2) as [keep Hkeep]; [lia|].
    destruct (decide (admin_positions_to_delete group.2 = []))
      as [Hnil|Hsome].
    + assert (mergeable group) as Hmerge by (split; [lia | done]).
      assert ((dry_run = false → accepts (delete_positions group.2))
              ∨ (dry_run = false
                 ∧ ∃ ps1 c, refused_at (delete_positions group.2) ps1 c))
        as [Hacc|[-> (ps1 & c & Href)]].
      { destruct dry_run; [by left|].
        destruct (first_refusal (delete_positions group.2)) as [?|?];
          [by left | by right]. }
      * rewrite (process_group_merge _ _ _ _ _ Hmerge Hacc). simpl.
        split_and!; [done | intros; lia |].
        intros _. exists keep. split; [done|].
        unfold merge_log. rewrite Hkeep, elem_of_app. right. left.
      * rewrite (process_group_refused _ _ _ _ _ _ Hmerge Href). simpl.
        split_and!; [done | intros; lia |].
        intros _. exists keep. split; [done|].
        unfold merge_log. rewrite Hkeep, !elem_of_app. right. left. left.
    + assert (violating group) as Hviol by (split; [lia | done]).
      rewrite (process_group_violation _ _ _ _ _ Hviol). simpl.
      split_and!; [done | intros; lia |].
      intros _. exists keep. split; [done|].
      unfold violation_log. rewrite elem_of_app. right. left.
Qed.

(** X3.  In either mode and however the run ends, the table after the run
    is the table before it with some rows left out: the rows that remain
    are unchanged and in the same order, and no row is added. *)
Theorem X3_run_only_removes_rows (dry_run : bool) (table : list Position) :
  (run dry_run table).1.(db) `sublist_of` table
  ∧ (dry_run = true → (run dry_run table).1.(db) = table)
  ∧ (∀ e, (run dry_run table).2 = inl e → (run dry_run table).1.(db) = table).
Proof.
  destruct (run_cases dry_run table)
    as [Hnone|[(Hsome & Hall & Hacc)
              |[(pre & g & post & Hgroups & Hpre & Hacc & Hg)
               |(-> & pre & g & post & ps1 & c & Hgroups & Hpre & Hacc
                 & Hg & Href)]]].
  - by rewrite (run_none _ _ Hnone).
  - rewrite (run_merge _ _ Hsome Hall Hacc). simpl. split_and!.
    + destruct dry_run; [done|]. apply sublist_filter.
    + by intros ->.
    + by intros ?.
  - by rewrite (run_violation _ _ _ _ _ Hgroups Hpre Hacc Hg).
  - by rewrite (run_refused _ _ _ _ _ _ Hgroups Hpre Hacc Hg Href).
Qed.

(** X4.  The command writes [NoDuplicatesFound], issues no [DELETE] and
    leaves the table as it is exactly when no two rows of the table have the
    same key [(person_id, org_id, semester, year)]. *)
Theorem X4_no_duplicates_iff_keys_distinct (dry_run : bool)
    (table : list Position) :
  NoDup (group_key <$> table)
  ↔ run dry_run table
    = (mkWorld table (preamble dry_run ++ [NoDuplicatesFound]) [], inr tt).
Proof.
  split.
  - intros Hnd. apply run_none, duplicate_groups_nil.
    intros k. by apply keys_NoDup_inv.
  - intros Hrun.
    destruct (run_cases dry_run table)
      as [Hnone|[(Hsome & Hall & Hacc)
                |[(pre & g & post & Hgroups & Hpre & Hacc & Hg)
                 |(-> & pre & g & post & ps1 & c & Hgroups & Hpre & Hacc
                   & Hg & Href)]]].
    + by apply keys_NoDup, duplicate_groups_nil.
    + rewrite (run_merge _ _ Hsome Hall Hacc) in Hrun.
      injection Hrun as _ Hout _. by apply app_inv_head in Hout.
    + by rewrite (run_violation _ _ _ _ _ Hgroups Hpre Hacc Hg) in Hrun.
    + by rewrite (run_refused _ _ _ _ _ _ Hgroups Hpre Hacc Hg Href)
        in Hrun.
Qed.

(** ** The table after a run that merged every group *)

Lemma run_returns (table : list Position) (w : World) :
  run false table = (w, inr tt) →
  Forall mergeable (duplicate_groups table)
  ∧ db w = delete_all (deletions (duplicate_groups table)) table
  ∧ deleted w = id <$> deletions (duplicate_groups table).
Proof.
  intros Hrun.
  destruct (run_cases false table)
    as [Hnone|[(Hsome & Hall & Hacc)
              |[(pre & g & post & Hgroups & Hpre & Hacc & Hg)
               |(Hdry & pre & g & post & ps1 & c & Hgroups & Hpre & Hacc
                 & Hg & Href)]]].
  - rewrite (run_none _ _ Hnone) in Hrun. injection Hrun as <-.
    rewrite Hnone. simpl. by rewrite delete_all_nil.
  - rewrite (run_merge _ _ Hsome Hall Hacc) in Hrun. by injection Hrun as <-.
  - by rewrite (run_violation _ _ _ _ _ Hgroups Hpre Hacc Hg) in Hrun.
  - by rewrite (run_refused _ _ _ _ _ _ Hgroups Hpre Hacc Hg Href) in Hrun.
Qed.

Lemma elem_of_group_of (table : list Position) (p q : Position) :
  q ∈ group_of table p ↔ group_key q = group_key p ∧ q ∈ table.
Proof. unfold group_of. by rewrite list_elem_of_filter. Qed.

Lemma group_of_same_key (table : list Position) (p q : Position) :
  group_key q = group_key p → group_of table q = group_of table p.
Proof.
  intros Hkey. unfold group_of. apply list_filter_iff. intros r.
  by rewrite Hkey.
Qed.

(** A row is deleted exactly when it is among the rows to delete of the
    rows that carry its key. *)
Lemma elem_of_deletions_group_of (table : list Position) (p : Position) :
  p ∈ deletions (duplicate_groups table)
  ↔ p ∈ delete_positions (group_of table p).
Proof.
  rewrite elem_of_deletions. split.
  - intros ([k l] & Hg & Hp). simpl in Hp.
    apply elem_of_duplicate_groups in Hg as [Hl _].
    assert (group_key p = k) as <-.
    { apply elem_of_delete_positions in Hp. rewrite Hl in Hp.
      apply list_elem_of_filter in Hp. by destruct Hp. }
    by rewrite Hl in Hp.
  - intros Hp. exists (group_key p, group_of table p). split; [|done].
    apply elem_of_duplicate_groups. split; [done|].
    pose proof (length_delete_positions (group_of table p)) as Hlen.
    destruct (delete_positions (group_of table p));
      [by apply elem_of_nil in Hp | simpl in Hlen; lia].
Qed.

Lemma keep_or_delete (l : list Position) (keep p : Position) :
  NoDup l → keep_position l = Some keep → p ∈ l →
  p ∈ delete_positions l ↔ p ≠ keep.
Proof.
  intros Hnd Hkeep Hp.
  pose proof (sorted_keep_delete _ _ Hkeep) as Hsorted.
  rewrite <- (sorted_Permutation l), Hsorted in Hnd.
  apply elem_of_sorted in Hp. rewrite Hsorted in Hp.
  apply NoDup_cons in Hnd as [Hnot _].
  apply elem_of_cons in Hp as [->|Hp]; split; try done.
  by intros ? ->.
Qed.

Lemma keep_position_elem_of (l : list Position) (keep : Position) :
  keep_position l = Some keep →
  keep ∈ l ∧ ∀ q, q ∈ l → (pos keep ≤ pos q)%Z.
Proof.
  intros Hkeep.
  destruct (keep_position_first_min _ _ Hkeep) as (l1 & l2 & -> & H1 & H2).
  rewrite Forall_forall in H1, H2. split.
  - rewrite elem_of_app. right. left.
  - intros q [Hq|[->|Hq]%elem_of_cons]%elem_of_app; [|done|by apply H2].
    specialize (H1 q Hq). simpl in H1. lia.
Qed.

Lemma deletions_in_table (table : list Position) (p : Position) :
  p ∈ deletions (duplicate_groups table) → p ∈ table.
Proof.
  intros Hp%elem_of_deletions_group_of%elem_of_delete_positions.
  apply elem_of_group_of in Hp. by destruct Hp.
Qed.

(** With unique ids, the rows left by the deletions are the rows kept for
    their key. *)
Lemma elem_of_table_after_merge (table : list Position) (p : Position) :
  NoDup (id <$> table) →
  p ∈ delete_all (deletions (duplicate_groups table)) table
  ↔ p ∈ table ∧ keep_position (group_of table p) = Some p.
Proof.
  intros Hnd. rewrite elem_of_delete_all.
  assert (NoDup (group_of table p)) as Hnd_g.
  { apply NoDup_filter. by eapply NoDup_fmap_1. }
  split.
  - intros [Hid Hp]. split; [done|].
    assert (p ∈ group_of table p) as Hpg by (by apply elem_of_group_of).
    destruct (keep_position_is_Some (group_of table p)) as [keep Hkeep].
    { destruct (group_of table p); [by apply elem_of_nil in Hpg|simpl; lia]. }
    destruct (decide (p = keep)) as [->|Hne]; [done|]. exfalso.
    apply Hid, list_elem_of_fmap_2, elem_of_deletions_group_of.
    by apply (keep_or_delete _ keep).
  - intros [Hp Hkeep]. split; [|done].
    intros (c & Hid & Hc)%list_elem_of_fmap.
    assert (p = c) as <-.
    { eapply id_inj; [done..| |done]. by apply deletions_in_table in Hc. }
    apply elem_of_deletions_group_of in Hc.
    assert (p ∈ group_of table p) as Hpg by (by apply elem_of_group_of).
    by apply (keep_or_delete _ p p Hnd_g Hkeep Hpg) in Hc.
Qed.

(** X5.  After a run without [--dry-run] that returns, on a table with
    unique ids, the rows left are exactly the rows kept for their key: a row
    of the table is left if and only if it comes first when the rows with
    its key are sorted by [pos]. *)
Theorem X5_rows_left_are_the_rows_kept (table : list Position) (w : World)
    (p : Position) :
  NoDup (id <$> table) →
  run false table = (w, inr tt) →
  p ∈ db w ↔ p ∈ table ∧ keep_position (group_of table p) = Some p.
Proof.
  intros Hnd Hrun. destruct (run_returns _ _ Hrun) as (_ & -> & _).
  by apply elem_of_table_after_merge.
Qed.

(** X6.  After a run without [--dry-run] that returns, on a table with
    unique ids, every key of the table is still carried by exactly one row:
    merging never removes the last row of a key. *)
Theorem X6_every_key_keeps_one_row (table : list Position) (w : World)
    (p : Position) :
  NoDup (id <$> table) →
  run false table = (w, inr tt) →
  p ∈ table →
  ∃ q, q ∈ db w ∧ group_key q = group_key p
       ∧ (pos q ≤ pos p)%Z
       ∧ ∀ q', q' ∈ db w → group_key q' = group_key p → q' = q.
Proof.
  intros Hnd Hrun Hp. destruct (run_returns _ _ Hrun) as (_ & Hdb & _).
  assert (p ∈ group_of table p) as Hpg by (by apply elem_of_group_of).
  destruct (keep_position_is_Some (group_of table p)) as [keep Hkeep].
  { destruct (group_of table p); [by apply elem_of_nil in Hpg|simpl; lia]. }
  destruct (keep_position_elem_of _ _ Hkeep) as [Hin Hmin].
  apply elem_of_group_of in Hin as [Hkey Hin].
  exists keep. split_and!.
  - rewrite Hdb. apply elem_of_table_after_merge; [done|].
    split; [done|]. by rewrite (group_of_same_key _ _ _ Hkey).
  - done.
  - by apply Hmin.
  - intros q' Hq' Hkey'. rewrite Hdb in Hq'.
    apply elem_of_table_after_merge in Hq' as [_ Hq']; [|done].
    rewrite (group_of_same_key _ _ _ Hkey') in Hq'. congruence.
Qed.

(** ** Counting the rows deleted *)

Lemma NoDup_delete_positions (l : list Position) :
  NoDup l → NoDup (delete_positions l).
Proof.
  intros Hnd. rewrite <- (sorted_Permutation l) in Hnd.
  unfold delete_positions. destruct (sorted l); [done|].
  by apply NoDup_cons in Hnd as [_ ?].
Qed.

Lemma NoDup_deletions (table : list Position) :
  NoDup (id <$> table) → NoDup (deletions (duplicate_groups table)).
Proof.
  intros Hnd. apply NoDup_fmap_1 in Hnd. unfold deletions.
  apply NoDup_bind.
  - intros [k1 l1] [k2 l2] p Hg1 Hg2 Hp1 Hp2. simpl in Hp1, Hp2.
    apply elem_of_delete_positions in Hp1, Hp2.
    destruct (elem_of_duplicate_group _ _ _ _ Hg1 Hp1) as [_ <-].
    destruct (elem_of_duplicate_group _ _ _ _ Hg2 Hp2) as [_ <-].
    apply elem_of_duplicate_groups in Hg1 as [-> _].
    by apply elem_of_duplicate_groups in Hg2 as [-> _].
  - intros [k l] Hg. simpl. apply NoDup_delete_positions.
    apply elem_of_duplicate_groups in Hg as [-> _]. by apply NoDup_filter.
  - eapply NoDup_fmap_1, duplicate_groups_keys_NoDup.
Qed.

(** The table is the rows left together with the rows deleted. *)
Lemma table_split_by_deletions (table : list Position) :
  NoDup (id <$> table) →
  table
  ≡ₚ delete_all (deletions (duplicate_groups table)) table
     ++ deletions (duplicate_groups table).
Proof.
  intros Hnd. pose proof (NoDup_fmap_1 _ _ Hnd) as Hnd_t.
  apply NoDup_Permutation; [done | |].
  - apply NoDup_app. split_and!.
    + by apply NoDup_filter.
    + intros p [Hid _]%elem_of_delete_all Hp.
      by apply Hid, list_elem_of_fmap_2.
    + by apply NoDup_deletions.
  - intros p. rewrite elem_of_app, elem_of_delete_all. split.
    + intros Hp.
      destruct (decide (p ∈ deletions (duplicate_groups table)))
        as [Hdel|Hdel]; [by right|].
      left. split; [|done]. intros (c & Hid & Hc)%list_elem_of_fmap.
      assert (p = c) as ->; [|done].
      eapply id_inj; [done..| |done]. by apply deletions_in_table in Hc.
    + intros [[_ ?]|?]; [done|]. by eapply deletions_in_table.
Qed.

(** The numbers a summary line carries, when the run returns. *)
Lemma summary_line_counts (dry_run : bool) (table : list Position)
    (w : World) (m d : nat) :
  run dry_run table = (w, inr tt) →
  DryRunSummary m d ∈ stdout w ∨ SuccessSummary m d ∈ stdout w →
  m = length (duplicate_groups table)
  ∧ d = length (deletions (duplicate_groups table)).
Proof.
  intros Hrun. rewrite length_deletions.
  destruct (run_cases dry_run table)
    as [Hnone|[(Hsome & Hall & Hacc)
              |[(pre & g & post & Hgroups & Hpre & Hacc & Hg)
               |(Hdry & pre & g & post & ps1 & c & Hgroups & Hpre & Hacc
                 & Hg & Href)]]].
  - rewrite (run_none _ _ Hnone) in Hrun. injection Hrun as <-. simpl.
    rewrite !elem_of_app, !list_elem_of_singleton.
    destruct dry_run; simpl; rewrite ?list_elem_of_singleton, ?elem_of_nil;
      intros [[?|?]|[?|?]]; done.
  - rewrite (run_merge _ _ Hsome Hall Hacc) in Hrun. injection Hrun as <-. simpl.
    rewrite !elem_of_app, !elem_of_cons, !elem_of_app,
      !list_elem_of_singleton.
    unfold summary.
    intros [[Hpre|[?|[Hlog|Hsum]]]|[Hpre|[?|[Hlog|Hsum]]]]; try done;
      try (by apply merge_log_lines in Hlog);
      try (destruct dry_run; simpl in Hpre;
           rewrite ?list_elem_of_singleton, ?elem_of_nil in Hpre; done);
      destruct dry_run; by simplify_eq.
  - by rewrite (run_violation _ _ _ _ _ Hgroups Hpre Hacc Hg) in Hrun.
  - subst dry_run.
    by rewrite (run_refused _ _ _ _ _ _ Hgroups Hpre Hacc Hg Href) in Hrun.
Qed.

(** X7.  After a run without [--dry-run] that returns, on a table with
    unique ids: the table before the run is the table after it together
    with the rows for which a [DELETE] was issued, no id was passed to
    [DELETE] twice, and the number of deleted rows that the [SuccessSummary]
    line reports is the number of rows the table lost. *)
Theorem X7_reported_deletions_are_the_rows_lost (table : list Position)
    (w : World) :
  NoDup (id <$> table) →
  run false table = (w, inr tt) →
  table ≡ₚ db w ++ deletions (duplicate_groups table)
  ∧ deleted w = id <$> deletions (duplicate_groups table)
  ∧ NoDup (deleted w)
  ∧ length (db w) + length (deleted w) = length table
  ∧ ∀ m d, SuccessSummary m d ∈ stdout w
           → length (db w) + d = length table.
Proof.
  intros Hnd Hrun. destruct (run_returns _ _ Hrun) as (_ & Hdb & Hdel).
  pose proof (table_split_by_deletions table Hnd) as Hsplit.
  rewrite <- Hdb in Hsplit.
  assert (length (db w) + length (deletions (duplicate_groups table))
          = length table) as Hlen.
  { by rewrite <- length_app, <- Hsplit. }
  split_and!; [done | done | | |].
  - rewrite Hdel. apply NoDup_fmap_2_strong; [|by apply NoDup_deletions].
    intros c1 c2 Hc1%deletions_in_table Hc2%deletions_in_table.
    by apply (id_inj table).
  - by rewrite Hdel, length_fmap.
  - intros m d Hsum.
    destruct (summary_line_counts false table w m d Hrun) as [_ ->]; auto.
Qed.

(** X8.  On a table with unique ids, when the dry run returns: if the store
    accepts the deletion of every row to delete, the run without [--dry-run]
    on the same table returns too, and the number of deletions that the
    [DryRunSummary] line announces is exactly the number of rows that run
    removes from the table; if the store refuses one of these rows, that
    run raises the error of a refused row and leaves the table as it was,
    which the dry run cannot tell. *)
Theorem X8_dry_run_predicts_the_rows_lost (table : list Position)
    (w_dry : World) (m d : nat) :
  NoDup (id <$> table) →
  run true table = (w_dry, inr tt) →
  DryRunSummary m d ∈ stdout w_dry →
  (accepts (deletions (duplicate_groups table))
   → ∃ w_real,
       run false table = (w_real, inr tt)
       ∧ length (db w_real) + d = length table
       ∧ length (deleted w_real) = d
       ∧ SuccessSummary m d ∈ stdout w_real)
  ∧ (¬ accepts (deletions (duplicate_groups table))
     → ∃ w_real c,
         run false table = (w_real, inl (DeleteError (id c)))
         ∧ db w_real = table
         ∧ c ∈ deletions (duplicate_groups table)
         ∧ delete_fails c = true).
Proof.
  intros Hnd Hdry Hsum.
  destruct (summary_line_counts true table w_dry m d Hdry) as [-> ->];
    [by left|].
  assert (∀ c, c ∈ deletions (duplicate_groups table) → is_admin c = false)
    as Hno_admin.
  { intros c Hc.
    destruct (proj1 (run_returns_iff true table) (ex_intro _ _ Hdry) c Hc).
    done. }
  split.
  - intros Hacc.
    destruct (proj2 (run_returns_iff false table)) as [w_real Hreal].
    { intros c Hc. split; [by apply Hno_admin|]. intros _.
      rewrite accepts_deletions in Hacc. by apply Hacc. }
    exists w_real. split; [done|].
    destruct (run_returns _ _ Hreal) as (_ & Hdb & Hdel).
    pose proof (table_split_by_deletions table Hnd) as Hsplit.
    split_and!.
    + by rewrite Hdb, <- length_app, <- Hsplit.
    + by rewrite Hdel, length_fmap.
    + destruct (run_cases false table)
        as [Hnone|[(Hsome & Hall & Hacc')
                  |[(pre & g & post & Hgroups & Hpre & Hacc' & Hg)
                   |(_ & pre & g & post & ps1 & c & Hgroups & Hpre & Hacc'
                     & Hg & Href)]]].
      * rewrite (run_none _ _ Hnone) in Hdry. injection Hdry as <-.
        simpl in Hsum. rewrite !elem_of_cons, elem_of_nil in Hsum.
        by destruct Hsum as [?|[?|[]]].
      * rewrite (run_merge _ _ Hsome Hall Hacc') in Hreal.
        injection Hreal as <-. simpl.
        rewrite elem_of_cons, elem_of_app, list_elem_of_singleton.
        right. right. unfold summary. by rewrite length_deletions.
      * by rewrite (run_violation _ _ _ _ _ Hgroups Hpre Hacc' Hg) in Hreal.
      * by rewrite (run_refused _ _ _ _ _ _ Hgroups Hpre Hacc' Hg Href)
          in Hreal.
  - intros Hnacc.
    destruct (run_outcome false table)
      as [[_ Hall]|[(w & k & g & _ & _ & Hg & c & Hc & Hadm)
                   |(_ & w & c & Hrun & Hdb & Hc & _ & Hfail)]].
    + destruct Hnacc. apply accepts_deletions. intros c Hc.
      by apply (Hall c Hc).
    + assert (is_admin c = false); [|congruence].
      apply Hno_admin, elem_of_deletions. by exists (k, g).
    + by exists w, c.
Qed.

(** ** The order in which the table is enumerated *)

Lemma group_of_Permutation (table table' : list Position) (p : Position) :
  table ≡ₚ table' → group_of table p ≡ₚ group_of table' p.
Proof. intros Hperm. unfold group_of. by rewrite Hperm. Qed.

(** When the row kept has a smaller [pos] than every other row of the
    group, any rearrangement of the group keeps the same row and deletes the
    same rows. *)
Lemma keep_position_Permutation (g g' : list Position) (keep : Position) :
  g ≡ₚ g' →
  keep_position g = Some keep →
  (∀ q, q ∈ g → q ≠ keep → (pos keep < pos q)%Z) →
  keep_position g' = Some keep
  ∧ delete_positions g' ≡ₚ delete_positions g.
Proof.
  intros Hperm Hkeep Hstrict.
  destruct (keep_position_elem_of _ _ Hkeep) as [Hin _].
  destruct (keep_position_is_Some g') as [keep' Hkeep'].
  { rewrite <- Hperm. destruct g; [by apply elem_of_nil in Hin|simpl; lia]. }
  destruct (keep_position_elem_of _ _ Hkeep') as [Hin' Hmin'].
  assert (keep' = keep) as ->.
  { destruct (decide (keep' = keep)) as [|Hne]; [done|]. exfalso.
    rewrite <- Hperm in Hin'. specialize (Hstrict keep' Hin' Hne).
    rewrite Hperm in Hin. specialize (Hmin' keep Hin). lia. }
  split; [done|].
  apply (Permutation_cons_inv (a := keep)).
  rewrite <- (sorted_keep_delete _ _ Hkeep), <- (sorted_keep_delete _ _ Hkeep').
  by rewrite !sorted_Permutation.
Qed.

Lemma least_pos_unique_strict (table : list Position) (p keep : Position) :
  least_pos_unique table →
  keep_position (group_of table p) = Some keep →
  ∀ q, q ∈ group_of table p → q ≠ keep → (pos keep < pos q)%Z.
Proof.
  intros Huniq Hkeep q Hq Hne.
  destruct (keep_position_elem_of _ _ Hkeep) as [Hin Hmin].
  destruct (decide (pos keep < pos q)%Z) as [|Hge]; [done|]. exfalso.
  apply elem_of_group_of in Hin as [Hkey Hin].
  apply Hne. symmetry. apply elem_of_group_of in Hq as Hq'.
  destruct Hq' as [Hkey_q Hq_tab].
  apply (Huniq keep q); [done | done | congruence |].
  intros r Hr Hkey_r.
  assert (pos keep ≤ pos r)%Z.
  { apply Hmin, elem_of_group_of. split; [congruence | done]. }
  split; lia.
Qed.

(** The rows deleted do not depend on the order of enumeration when no key
    has a tie at its least [pos]. *)
Lemma deletions_Permutation (table table' : list Position) (c : Position) :
  table ≡ₚ table' → least_pos_unique table →
  c ∈ deletions (duplicate_groups table)
  ↔ c ∈ deletions (duplicate_groups table').
Proof.
  intros Hperm Huniq. rewrite !elem_of_deletions_group_of.
  pose proof (group_of_Permutation _ _ c Hperm) as Hg.
  assert (c ∈ group_of table c
          → delete_positions (group_of table' c)
            ≡ₚ delete_positions (group_of table c)) as Hdel.
  { intros Hc.
    destruct (keep_position_is_Some (group_of table c)) as [keep Hkeep].
    { destruct (group_of table c); [by apply elem_of_nil in Hc|simpl; lia]. }
    eapply keep_position_Permutation; [done..|].
    by eapply least_pos_unique_strict. }
  split; intros Hc.
  - rewrite Hdel; [done|]. by apply elem_of_delete_positions.
  - rewrite <- Hdel; [done|].
    rewrite Hg. by apply elem_of_delete_positions.
Qed.

Lemma run_raises_iff (dry_run : bool) (table : list Position) :
  (∃ w e, run dry_run table = (w, inl e))
  ↔ ¬ ∃ w, run dry_run table = (w, inr tt).
Proof.
  destruct (run dry_run table) as [w [e|[]]]; split.
  - by intros _ [? ?].
  - by eauto.
  - by intros (? & ? & ?).
  - intros Hno. destruct Hno. by eauto.
Qed.

Lemma run_returns_or_raises (dry_run : bool) (table : list Position) :
  (∃ w, run dry_run table = (w, inr tt))
  ∨ (∃ w e, run dry_run table = (w, inl e)).
Proof.
  destruct (run dry_run table) as [w [e|[]]]; eauto.
Qed.

(** X9.  On a table with unique ids in which no key has a tie at its least
    [pos], the outcome does not depend on the order in which the table is
    enumerated: for any other enumeration of the same rows the command
    raises if and only if it raises for this one, and when the run without
    [--dry-run] returns, it returns for the other enumeration too and leaves
    the same rows. *)
Theorem X9_outcome_independent_of_order_without_ties (dry_run : bool)
    (table table' : list Position) :
  table ≡ₚ table' →
  NoDup (id <$> table) →
  least_pos_unique table →
  ((∃ w e, run dry_run table = (w, inl e))
   ↔ (∃ w' e', run dry_run table' = (w', inl e')))
  ∧ ∀ w, run false table = (w, inr tt)
         → ∃ w', run false table' = (w', inr tt) ∧ db w' ≡ₚ db w.
Proof.
  intros Hperm Hnd Huniq.
  assert (NoDup (id <$> table')) as Hnd' by (by rewrite <- Hperm).
  assert (∀ dry,
            (∃ w e, run dry table = (w, inl e))
            ↔ (∃ w' e', run dry table' = (w', inl e'))) as Hraise.
  { intros dry. rewrite !run_raises_iff, !run_returns_iff.
    split; intros Hno Hall; apply Hno; intros c Hc; apply Hall.
    - by apply (deletions_Permutation table table').
    - by apply (deletions_Permutation table table'). }
  split; [apply Hraise|].
  intros w Hrun.
  destruct (run_returns_or_raises false table') as [[w' Hrun']|Hraises].
  2: { apply Hraise in Hraises as (? & ? & Hbad). congruence. }
  exists w'. split; [done|].
  destruct (run_returns _ _ Hrun) as (_ & Hdb & _).
  destruct (run_returns _ _ Hrun') as (_ & Hdb' & _).
  apply NoDup_Permutation.
  - rewrite Hdb'. apply NoDup_filter. by eapply NoDup_fmap_1.
  - rewrite Hdb. apply NoDup_filter. by eapply NoDup_fmap_1.
  - intros p. rewrite Hdb, Hdb'.
    rewrite !elem_of_table_after_merge by done.
    assert (p ∈ table ↔ p ∈ table') as Hmem by (by rewrite Hperm).
    pose proof (group_of_Permutation _ _ p Hperm) as Hg.
    split; intros [Hp Hkeep]; (split; [by apply Hmem|]).
    + apply Hmem in Hp.
      assert (p ∈ group_of table p) as Hpg by (by apply elem_of_group_of).
      destruct (keep_position_is_Some (group_of table p)) as [keep Hk].
      { destruct (group_of table p);
          [by apply elem_of_nil in Hpg|simpl; lia]. }
      destruct (keep_position_Permutation _ _ keep Hg Hk) as [Hk' _].
      { by eapply least_pos_unique_strict. }
      congruence.
    + eapply keep_position_Permutation; [done..|].
      by eapply least_pos_unique_strict.
Qed.

(** ** The order of the groups *)

Lemma list_filter_split {A} (P : A → Prop) `{∀ x, Decision (P x)}
    (l l1 l2 : list A) (x : A) :
  filter P l = l1 ++ x :: l2 →
  ∃ t1 t2, l = t1 ++ x :: t2 ∧ filter P t1 = l1 ∧ filter P t2 = l2.
Proof.
  revert l1. induction l as [|a l IH]; intros l1 Hf.
  - by destruct l1.
  - rewrite filter_cons in Hf. destruct (decide (P a)) as [Ha|Ha].
    + destruct l1 as [|b l1]; simpl in Hf.
      * injection Hf as -> <-. by exists [], l.
      * injection Hf as <- Hf.
        destruct (IH _ Hf) as (t1 & t2 & -> & <- & <-).
        exists (a :: t1), t2. by rewrite filter_cons_True.
    + destruct (IH _ Hf) as (t1 & t2 & -> & <- & <-).
      exists (a :: t1), t2. by rewrite filter_cons_False.
Qed.

Lemma elem_of_group_positions_keys (table : list Position) (k : Key) :
  k ∈ (group_positions table).*1 ↔ k ∈ group_key <$> table.
Proof.
  rewrite !list_elem_of_fmap. split.
  - intros ([k' g] & -> & Hg). simpl.
    apply elem_of_group_positions in Hg as [-> Hne].
    destruct (filter _ table) as [|p l] eqn:Hf; [done|].
    assert (p ∈ filter (λ p, group_key p = k') table) as Hp
      by (rewrite Hf; left).
    apply list_elem_of_filter in Hp as [Hk Hp]. by exists p.
  - intros (p & -> & Hp).
    exists (group_key p, filter (λ q, group_key q = group_key p) table).
    split; [done|]. apply elem_of_group_positions. split; [done|].
    intros Hnil. by apply (filter_nil_not_elem_of _ _ p Hnil).
Qed.

Lemma group_positions_snoc (table : list Position) (p : Position) :
  group_positions (table ++ [p])
  = dict_append (group_key p) p (group_positions table).
Proof. unfold group_positions. by rewrite foldl_app. Qed.

(** The key at a place of the dictionary is the key of the first row that
    comes after rows carrying exactly the keys at the places before it. *)
Lemma group_positions_key_order (table : list Position) (K1 K2 : list Key)
    (k1 : Key) :
  (group_positions table).*1 = K1 ++ k1 :: K2 →
  ∃ t1 p t2, table = t1 ++ p :: t2 ∧ group_key p = k1
             ∧ ∀ k, k ∈ group_key <$> t1 ↔ k ∈ K1.
Proof.
  revert K1 K2. induction table as [|p table IH] using rev_ind;
    intros K1 K2 Hkeys.
  - by destruct K1.
  - rewrite group_positions_snoc, dict_append_keys in Hkeys.
    destruct (decide (group_key p ∈ (group_positions table).*1))
      as [Hin|Hnin].
    + destruct (IH _ _ Hkeys) as (t1 & p0 & t2 & -> & Hp0 & Ht1).
      exists t1, p0, (t2 ++ [p]). by rewrite <- app_assoc.
    + destruct K2 as [|x K2 _] using rev_ind.
      * apply app_inj_tail in Hkeys as [Hkeys <-].
        exists table, p, []. split_and!; [done..|].
        intros k. by rewrite <- elem_of_group_positions_keys, Hkeys.
      * rewrite app_comm_cons, app_assoc in Hkeys.
        apply app_inj_tail in Hkeys as [Hkeys _].
        destruct (IH _ _ Hkeys) as (t1 & p0 & t2 & -> & Hp0 & Ht1).
        exists t1, p0, (t2 ++ [p]). by rewrite <- app_assoc.
Qed.

(** X10.  [find_duplicates] returns the groups in the order in which their
    first rows are enumerated: the table splits at the first row [p] with
    the key of a returned group so that the key does not occur before [p],
    every group returned earlier has a row before [p], and no group returned
    later has a row up to [p].  (The loop of line 48 processes the groups in
    this order, so the group for which [ValueError] is raised is, among the
    groups with an admin row to delete, the one whose first row comes
    first.) *)
Theorem X10_groups_in_order_of_first_row (w w' : World) (l1 l2 : Groups)
    (k : Key) (g : list Position) :
  find_duplicates w = (w', inr (l1 ++ (k, g) :: l2)) →
  ∃ t1 p t2,
    db w = t1 ++ p :: t2
    ∧ group_key p = k
    ∧ (k ∉ group_key <$> t1)
    ∧ head g = Some p
    ∧ (∀ g0, g0 ∈ l1 → g0.1 ∈ group_key <$> t1)
    ∧ (∀ g2, g2 ∈ l2 → (g2.1 ∉ group_key <$> (t1 ++ [p]))).
Proof.
  rewrite find_duplicates_eq. intros [= _ Hdup].
  unfold duplicate_groups in Hdup.
  destruct (list_filter_split _ _ _ _ _ Hdup) as (d1 & d2 & Hd & Hl1 & Hl2).
  pose proof (group_positions_wf (db w)) as [Hnd _].
  assert ((k, g) ∈ group_positions (db w)) as Hg.
  { rewrite Hd, elem_of_app. right. left. }
  apply elem_of_group_positions in Hg as [Hg _].
  rewrite Hd, fmap_app, fmap_cons in Hnd. simpl in Hnd.
  apply NoDup_app in Hnd as (_ & Hdisj & Hnd).
  apply NoDup_cons in Hnd as [Hk_d2 _].
  assert ((group_positions (db w)).*1 = d1.*1 ++ k :: d2.*1) as Hkeys
    by (by rewrite Hd, fmap_app).
  destruct (group_positions_key_order _ _ _ _ Hkeys)
    as (t1 & p & t2 & Htable & Hp & Ht1).
  assert (k ∉ group_key <$> t1) as Hk_t1.
  { intros Hin%Ht1. apply (Hdisj _ Hin). left. }
  exists t1, p, t2. split_and!; [done | done | done | | |].
  - rewrite Hg, Htable, filter_app, filter_cons_True by done.
    rewrite (filter_none _ t1); [done|].
    intros q Hq Hkq. apply Hk_t1. rewrite <- Hkq.
    by apply list_elem_of_fmap_2.
  - intros g0 Hg0. apply Ht1. apply list_elem_of_fmap_2.
    rewrite <- Hl1 in Hg0. by apply list_elem_of_filter in Hg0 as [_ ?].
  - intros g2 Hg2. rewrite fmap_app, not_elem_of_app.
    assert (g2.1 ∈ d2.*1) as Hin2.
    { apply list_elem_of_fmap_2. rewrite <- Hl2 in Hg2.
      by apply list_elem_of_filter in Hg2 as [_ ?]. }
    split.
    + intros Hin%Ht1. apply (Hdisj _ Hin). by right.
    + rewrite list_fmap_singleton, list_elem_of_singleton, Hp.
      intros Heq. apply Hk_d2. by rewrite <- Heq.
Qed.

(** ** One row per key *)

Lemma kept_row_of_key (table : list Position) (p : Position) :
  NoDup (id <$> table) → p ∈ table →
  ∃ keep, keep ∈ delete_all (deletions (duplicate_groups table)) table
          ∧ group_key keep = group_key p.
Proof.
  intros Hnd Hp.
  assert (p ∈ group_of table p) as Hpg by (by apply elem_of_group_of).
  destruct (keep_position_is_Some (group_of table p)) as [keep Hkeep].
  { destruct (group_of table p); [by apply elem_of_nil in Hpg|simpl; lia]. }
  destruct (keep_position_elem_of _ _ Hkeep) as [Hin _].
  apply elem_of_group_of in Hin as [Hkey Hin].
  exists keep. split; [|done].
  apply elem_of_table_after_merge; [done|].
  split; [done|]. by rewrite (group_of_same_key _ _ _ Hkey).
Qed.

(** X11.  After a run without [--dry-run] that returns, on a table with
    unique ids, the keys of the rows left are the keys of the table, each
    once: the table is left with as many rows as it had distinct keys. *)
Theorem X11_one_row_per_distinct_key (table : list Position) (w : World) :
  NoDup (id <$> table) →
  run false table = (w, inr tt) →
  group_key <$> db w ≡ₚ remove_dups (group_key <$> table)
  ∧ length (db w) = length (remove_dups (group_key <$> table)).
Proof.
  intros Hnd Hrun. destruct (run_returns _ _ Hrun) as (_ & Hdb & _).
  assert (group_key <$> db w ≡ₚ remove_dups (group_key <$> table)) as Hperm.
  { apply NoDup_Permutation.
    - rewrite Hdb. apply keys_NoDup, keys_after_merge.
    - apply NoDup_remove_dups.
    - intros k. rewrite elem_of_remove_dups, !list_elem_of_fmap, Hdb. split.
      + intros (q & -> & [_ Hq]%elem_of_delete_all). by exists q.
      + intros (q & -> & Hq).
        destruct (kept_row_of_key table q Hnd Hq) as (keep & Hkeep & Hkey).
        by exists keep. }
  split; [done|]. by rewrite <- Hperm, length_fmap.
Qed.

(** ** A deletion that the store refuses *)

Lemma split_at_group (table : list Position) (pre post : Groups)
    (g : Key * list Position) :
  duplicate_groups table = pre ++ g :: post →
  Forall (λ g', admin_positions_to_delete g'.2 = []) pre →
  admin_positions_to_delete g.2 = [] →
  Forall mergeable pre ∧ mergeable g.
Proof.
  intros Hgroups Hpre Hg.
  pose proof (duplicate_groups_sizes table) as Hsizes.
  rewrite Hgroups in Hsizes.
  apply Forall_app in Hsizes as [Hs1 Hs2].
  apply Forall_cons in Hs2 as [Hs2 _].
  split; [|done].
  rewrite Forall_forall in Hs1, Hpre |- *. intros g' Hg'. split; auto.
Qed.

(** X12.  Without [--dry-run], when the groups [pre] are merged and the
    store refuses the row [c] of the next group after accepting the rows
    [ps1] of that group: the [except] clause of lines 101-107 writes its
    line for the group (the last line written), the error of [c] is raised
    again, no summary line is written, and the table after the run is the
    table before it, although [_process_duplicates] alone leaves it without
    the rows already deleted. *)
Theorem X12_refused_delete_rolls_back (table : list Position)
    (pre post : Groups) (g : Key * list Position) (ps1 : list Position)
    (c : Position) :
  duplicate_groups table = pre ++ g :: post →
  Forall (λ g', admin_positions_to_delete g'.2 = []) pre →
  accepts (deletions pre) →
  admin_positions_to_delete g.2 = [] →
  refused_at (delete_positions g.2) ps1 c →
  ∃ w w_inner,
    run false table = (w, inl (DeleteError (id c)))
    ∧ db w = table
    ∧ last (stdout w)
      = Some (ErrorProcessingGroup g.1 (DeleteError (id c)))
    ∧ (∀ m d, SuccessSummary m d ∉ stdout w)
    ∧ deleted w = id <$> deletions pre ++ ps1 ++ [c]
    ∧ _process_duplicates false (mkWorld table [] [])
      = (w_inner, inl (DeleteError (id c)))
    ∧ db w_inner = delete_all (deletions pre ++ ps1) table.
Proof.
  intros Hgroups Hpre Hacc Hg Href.
  destruct (split_at_group _ _ _ _ Hgroups Hpre Hg) as [Hpre' Hg'].
  rewrite (run_refused _ _ _ _ _ _ Hgroups Hpre' Hacc Hg' Href).
  rewrite (process_duplicates_refused (mkWorld table [] []) pre post g ps1 c
             Hgroups Hpre' Hacc Hg' Href).
  do 2 eexists. split_and!; try done; simpl.
  - by rewrite app_comm_cons, !app_assoc, last_snoc.
  - intros m d.
    rewrite elem_of_cons, !elem_of_app, list_elem_of_singleton.
    intros [?|[Hlog|[Hlog|?]]]; try done.
    + by apply merge_log_lines in Hlog.
    + assert (SuccessSummary m d ∈ [g] ≫= merge_log) as Hlog'
        by (by rewrite bind_singleton).
      by apply merge_log_lines in Hlog'.
Qed.

End Command.

(** ** The command at concrete tables *)

(** The two scenarios of the specification, on a store that accepts every
    deletion. *)
Example scenario_violation :
  run person_name org_name no_refusal false
    [row 1 10 3 false; row 2 10 1 false; row 3 10 2 true]
  = (mkWorld [row 1 10 3 false; row 2 10 1 false; row 3 10 2 true]
       [FoundGroups 1; ProcessingGroup "P10 in O20 (2024 Fall)";
        FoundDuplicatePositions 3; ErrorAdminPositions 1; RollingBack]
       [],
     inl (ValueError "P10 in O20 (2024 Fall)" 1)).
Proof. by vm_compute. Qed.

Example scenario_merge :
  run person_name org_name no_refusal false
    [row 1 10 3 false; row 2 10 1 false; row 3 10 2 false]
  = (mkWorld [row 2 10 1 false]
       [FoundGroups 1; ProcessingGroup "P10 in O20 (2024 Fall)";
        FoundDuplicatePositions 3; KeepingPosition 2 1; DeletingPositions 2;
        SuccessSummary 1 2]
       [3; 1]%Z,
     inr tt).
Proof. by vm_compute. Qed.

Example table_violation_groups :
  duplicate_groups table_violation = [group_10; group_11; group_12].
Proof. by vm_compute. Qed.

Example table_merge_run :
  run person_name org_name no_refusal false table_merge
  = (world_merged, inr tt).
Proof. by vm_compute. Qed.

(** The row with id 3 of [table_violation] is a row to delete of the group
    with the admin row: the run stops before the store is asked for it. *)
Example table_violation_run :
  run person_name org_name refuses_3 false table_violation
  = (mkWorld table_violation
       [FoundGroups 3;
        ProcessingGroup "P10 in O20 (2024 Fall)"; FoundDuplicatePositions 2;
        KeepingPosition 2 1; DeletingPositions 1;
        ProcessingGroup "P11 in O20 (2024 Fall)"; FoundDuplicatePositions 3;
        ErrorAdminPositions 1; RollingBack]
       [1%Z],
     inl (ValueError "P11 in O20 (2024 Fall)" 1)).
Proof. by vm_compute. Qed.

Example table_violation_dry_run :
  run person_name org_name refuses_3 true table_violation
  = (mkWorld table_violation
       [DryRunMode; FoundGroups 3;
        ProcessingGroup "P10 in O20 (2024 Fall)"; FoundDuplicatePositions 2;
        KeepingPosition 2 1; DeletingPositions 1;
        ProcessingGroup "P11 in O20 (2024 Fall)"; FoundDuplicatePositions 3;
        ErrorAdminPositions 1; RollingBack]
       [],
     inl (ValueError "P11 in O20 (2024 Fall)" 1)).
Proof. by vm_compute. Qed.

(** A refused deletion: the rows of the group are deleted in the order of
    the sort (ids 3, then 1); the store refuses the first. *)
Example table_merge_refused_run :
  run person_name org_name refuses_3 false table_merge
  = (world_refused, inl (DeleteError 3)).
Proof. by vm_compute. Qed.

(** The store refuses the second deletion: the first is undone. *)
Example table_merge_refused_second :
  run person_name org_name refuses_1 false table_merge
  = (mkWorld table_merge
       [FoundGroups 1; ProcessingGroup "P10 in O20 (2024 Fall)";
        FoundDuplicatePositions 3; KeepingPosition 2 1; DeletingPositions 2;
        ErrorProcessingGroup (key_of 10) (DeleteError 1)]
       [3; 1]%Z,
     inl (DeleteError 1))
  ∧ (_process_duplicates person_name org_name refuses_1 false
       (mkWorld table_merge [] [])).1.(db)
    = [row 1 10 3 false; row 2 10 1 true; row 4 11 7 false].
Proof. by vm_compute. Qed.

(** C2, as stated, fails: of the two rows of [table_tie] that tie on the
    least [pos], the row with id 2, enumerated before the row with id 1, is
    the one kept, and the row with id 1 is deleted. *)
Lemma C2_counterexample_tie_keeps_larger_id :
  ¬ tie_keeps_min_id table_tie (key_of 10) table_tie
  ∧ NoDup (id <$> table_tie)
  ∧ keep_position table_tie = Some (row 2 10 1 false)
  ∧ run person_name org_name no_refusal false table_tie
    = (mkWorld [row 2 10 1 false]
         [FoundGroups 1; ProcessingGroup "P10 in O20 (2024 Fall)";
          FoundDuplicatePositions 3; KeepingPosition 2 1; DeletingPositions 2;
          SuccessSummary 1 2]
         [1; 3]%Z,
       inr tt).
Proof.
  split_and!; [|compute_done|done..].
  intros Hmin.
  assert ((key_of 10, table_tie) ∈ duplicate_groups table_tie) as Hin
    by compute_done.
  specialize (Hmin Hin (row 2 10 1 false) (row 1 10 1 false) eq_refl).
  assert (id (row 2 10 1 false) ≤ id (row 1 10 1 false))%Z as Hle.
  { apply Hmin; [compute_done | done]. }
  simpl in Hle. lia.
Qed.

(** C4, as stated, fails: when the store refuses the row with id 3, the dry
    run on [table_merge] returns and announces one group merged and two
    rows deleted, while the run without [--dry-run] on the same table
    raises the error of the store, writes no summary and deletes nothing.
    So the two modes do not end the same way on every table. *)
Lemma C4_counterexample_refused_deletion :
  run person_name org_name refuses_3 true table_merge = (world_dry, inr tt)
  ∧ run person_name org_name refuses_3 false table_merge
    = (world_refused, inl (DeleteError 3))
  ∧ last (stdout world_dry) = Some (DryRunSummary 1 2)
  ∧ (∀ m d, SuccessSummary m d ∉ stdout world_refused)
  ∧ db world_refused = table_merge
  ∧ ¬ (∀ table, (run person_name org_name refuses_3 true table).2
                = (run person_name org_name refuses_3 false table).2).
Proof.
  split_and!; [by vm_compute | by vm_compute | done | | done |].
  - intros m d Hin. unfold world_refused in Hin. simpl in Hin.
    repeat (apply elem_of_cons in Hin as [Hin|Hin]; [discriminate Hin|]).
    by apply elem_of_nil in Hin.
  - intros Hsame. specialize (Hsame table_merge).
    vm_compute in Hsame. discriminate Hsame.
Qed.

(** C7, as stated, fails: with two persons displayed alike, the runs on
    [table_li_10] and on [table_li_11], whose groups have different keys,
    raise the same exception and write the same lines.  Nothing that the
    run reports tells the key of the one group from the key of the other. *)
Lemma C7_counterexample_same_display :
  duplicate_groups table_li_10 = [(key_of 10, table_li_10)]
  ∧ duplicate_groups table_li_11 = [(key_of 11, table_li_11)]
  ∧ key_of 10 ≠ key_of 11
  ∧ run same_name org_name no_refusal false table_li_10
    = (mkWorld table_li_10 li_log [],
       inl (ValueError "Li in O20 (2024 Fall)" 1))
  ∧ run same_name org_name no_refusal false table_li_11
    = (mkWorld table_li_11 li_log [],
       inl (ValueError "Li in O20 (2024 Fall)" 1))
  ∧ ¬ (∃ key_in : Exception * list Message → Key,
         ∀ table k g w e,
           table ∈ [table_li_10; table_li_11] →
           duplicate_groups table = [(k, g)] →
           run same_name org_name no_refusal false table = (w, inl e) →
           key_in (e, stdout w) = k).
Proof.
  split_and!; [by vm_compute | by vm_compute | done | by vm_compute
               | by vm_compute |].
  intros [key_in Hkey].
  assert (key_in (ValueError "Li in O20 (2024 Fall)" 1, li_log) = key_of 10)
    as H10.
  { apply (Hkey table_li_10 (key_of 10) table_li_10
             (mkWorld table_li_10 li_log []));
      [compute_done | by vm_compute | by vm_compute]. }
  assert (key_in (ValueError "Li in O20 (2024 Fall)" 1, li_log) = key_of 11)
    as H11.
  { apply (Hkey table_li_11 (key_of 11) table_li_11
             (mkWorld table_li_11 li_log []));
      [compute_done | by vm_compute | by vm_compute]. }
  rewrite H10 in H11. discriminate H11.
Qed.



Lemma C3_witness :
  duplicate_groups table_violation = [group_10] ++ group_11 :: [group_12]
  ∧ Forall (λ g', admin_positions_to_delete g'.2 = []) [group_10]
  ∧ accepts refuses_3 (deletions [group_10])
  ∧ admin_positions_to_delete group_11.2 ≠ []
  ∧ ∃ w w_inner,
      run person_name org_name refuses_3 false table_violation
      = (w, inl (ValueError (group_display person_name org_name group_11.1)
                   (length (admin_positions_to_delete group_11.2))))
      ∧ db w = table_violation
      ∧ _process_duplicates person_name org_name refuses_3 false
          (mkWorld table_violation [] [])
        = (w_inner,
           inl (ValueError (group_display person_name org_name group_11.1)
                  (length (admin_positions_to_delete group_11.2))))
      ∧ db w_inner = delete_all (deletions [group_10]) table_violation
      ∧ deleted w = id <$> deletions [group_10]
      ∧ length (deleted w) = sum_list_with (λ g', length g'.2 - 1) [group_10]
      ∧ ([group_10] ≠ [] → db w_inner ≠ table_violation).
Proof.
  split_and!;
    [by vm_compute | compute_done | by repeat constructor | compute_done |].
  apply (C3_violation_rolls_back_all_deletions person_name org_name refuses_3
           table_violation [group_10] [group_12] group_11);
    [by vm_compute | compute_done | by repeat constructor | compute_done].
Defined.

Lemma C6_witness :
  run person_name org_name no_refusal false table_merge
  = (world_merged, inr tt)
  ∧ NoDup (group_key <$> db world_merged)
  ∧ find_duplicates world_merged = (world_merged, inr [])
  ∧ run person_name org_name no_refusal false (db world_merged)
    = (mkWorld (db world_merged) [NoDuplicatesFound] [], inr tt).
Proof.
  split; [by vm_compute|].
  apply (C6_second_run_finds_nothing person_name org_name no_refusal
           table_merge world_merged).
  by vm_compute.
Defined.

Lemma C7_witness :
  duplicate_groups table_violation
  = [group_10] ++ ((11, 20, "Fall", 2024)%Z, group_11.2) :: [group_12]
  ∧ Forall (λ g', admin_positions_to_delete g'.2 = []) [group_10]
  ∧ (false = false → accepts refuses_3 (deletions [group_10]))
  ∧ admin_positions_to_delete group_11.2 ≠ []
  ∧ ∃ w,
      run person_name org_name refuses_3 false table_violation
      = (w, inl (ValueError
                   (person_name 11 +:+ " in " +:+ org_name 20
                    +:+ " (" +:+ pretty 2024%Z +:+ " " +:+ "Fall" +:+ ")")
                   (length (filter (λ c, is_admin c = true)
                              (delete_positions group_11.2)))))
      ∧ stdout w
        = preamble false
          ++ FoundGroups
               (length ([group_10]
                        ++ ((11, 20, "Fall", 2024)%Z, group_11.2)
                           :: [group_12]))
             :: ([group_10] ≫= merge_log person_name org_name)
             ++ [ProcessingGroup
                   (person_name 11 +:+ " in " +:+ org_name 20
                    +:+ " (" +:+ pretty 2024%Z +:+ " " +:+ "Fall" +:+ ")");
                 FoundDuplicatePositions (length group_11.2);
                 ErrorAdminPositions
                   (length (filter (λ c, is_admin c = true)
                              (delete_positions group_11.2)));
                 RollingBack]
      ∧ (∀ post' totals w0,
           for_each (process_group person_name org_name refuses_3 false)
             ([group_10] ++ ((11, 20, "Fall", 2024)%Z, group_11.2) :: post')
             totals w0
           = for_each (process_group person_name org_name refuses_3 false)
               ([group_10] ++ [((11, 20, "Fall", 2024)%Z, group_11.2)])
               totals w0)
      ∧ deleted w = (if false then [] else id <$> deletions [group_10])
      ∧ db w = table_violation.
Proof.
  split_and!;
    [by vm_compute | compute_done | by repeat constructor | compute_done |].
  apply (C7_violation_stops_the_run person_name org_name refuses_3 false
           table_violation [group_10] [group_12] 11 20 "Fall" 2024
           group_11.2);
    [by vm_compute | compute_done | by repeat constructor | compute_done].
Defined.

Lemma C8_witness :
  1 < length group_merge.2
  ∧ keep_position group_merge.2 = Some (row 2 10 1 true)
  ∧ is_admin (row 2 10 1 true) = true
  ∧ sorted group_merge.2
    = row 2 10 1 true :: delete_positions group_merge.2
  ∧ row 2 10 1 true ∈ group_merge.2
  ∧ length (filter (λ c, is_admin c = true) group_merge.2)
    = S (length (filter (λ c, is_admin c = true)
                   (delete_positions group_merge.2)))
  ∧ ((∃ w' s n, process_group person_name org_name no_refusal false
                  (key_of 10, group_merge.2) (0, 0)
                  (mkWorld table_merge [] []) = (w', inl (ValueError s n)))
     ↔ ∃ c, c ∈ delete_positions group_merge.2 ∧ is_admin c = true)
  ∧ ((false = false → accepts no_refusal (delete_positions group_merge.2))
     → ((∃ w' e, process_group person_name org_name no_refusal false
                   (key_of 10, group_merge.2) (0, 0)
                   (mkWorld table_merge [] []) = (w', inl e))
        ↔ ∃ c, c ∈ delete_positions group_merge.2 ∧ is_admin c = true))
  ∧ (∀ w' e, process_group person_name org_name no_refusal false
               (key_of 10, group_merge.2) (0, 0)
               (mkWorld table_merge [] []) = (w', inl e)
             → e = ValueError (group_display person_name org_name (key_of 10))
                     (length (filter (λ c, is_admin c = true)
                                (delete_positions group_merge.2)))
               ∨ (false = false
                  ∧ ∃ c, c ∈ delete_positions group_merge.2
                         ∧ no_refusal c = true ∧ e = DeleteError (id c)))
  ∧ ((∀ c, c ∈ delete_positions group_merge.2 → is_admin c = false)
     → (false = false → accepts no_refusal (delete_positions group_merge.2))
     → ∃ w', process_group person_name org_name no_refusal false
               (key_of 10, group_merge.2) (0, 0)
               (mkWorld table_merge [] [])
             = (w', inr (0 + 1, 0 + (length group_merge.2 - 1)))
             ∧ deleted w'
               = deleted (mkWorld table_merge [] [])
                 ++ (if false then []
                     else id <$> delete_positions group_merge.2)).
Proof.
  split_and!; [simpl; lia | reflexivity | reflexivity | ..];
    apply (C8_admin_survivor_is_legal person_name org_name no_refusal false
             (key_of 10) group_merge.2 (row 2 10 1 true) 0 0
             (mkWorld table_merge [] []));
    first [simpl; lia | reflexivity].
Defined.

Lemma C9_witness :
  (key_of 10, table_tie) ∈ duplicate_groups table_tie
  ∧ keep_position table_tie = Some (row 2 10 1 false)
  ∧ (∃ t1 t2,
       table_tie = t1 ++ row 2 10 1 false :: t2
       ∧ group_key (row 2 10 1 false) = key_of 10
       ∧ (∀ q, q ∈ t1 → group_key q = key_of 10
               → (pos (row 2 10 1 false) < pos q)%Z)
       ∧ (∀ q, q ∈ t2 → group_key q = key_of 10
               → (pos (row 2 10 1 false) ≤ pos q)%Z))
  ∧ (∀ v, filter (λ q, pos q = v) (sorted table_tie)
          = filter (λ q, group_key q = key_of 10 ∧ pos q = v) table_tie)
  ∧ ∃ a b,
      a ≠ b ∧ pos a = pos b ∧ group_key a = group_key b
      ∧ keep_position [a; b] = Some a ∧ keep_position [b; a] = Some b
      ∧ KeepingPosition (id a) (pos a)
        ∈ stdout (run person_name org_name no_refusal true [a; b]).1
      ∧ KeepingPosition (id b) (pos b)
        ∈ stdout (run person_name org_name no_refusal true [b; a]).1
      ∧ (no_refusal b = false
         → (run person_name org_name no_refusal false [a; b]).1.(db) = [a])
      ∧ (no_refusal a = false
         → (run person_name org_name no_refusal false [b; a]).1.(db) = [b]).
Proof.
  split_and!; [compute_done | reflexivity | ..];
    apply (C9_tie_keeps_first_enumerated person_name org_name no_refusal
             table_tie (key_of 10) table_tie (row 2 10 1 false));
    first [compute_done | reflexivity].
Defined.

Lemma C2_witness :
  (key_of 10, table_tie) ∈ duplicate_groups table_tie
  ∧ keep_position table_tie = Some (row 2 10 1 false)
  ∧ row 2 10 1 false ∈ table_tie
  ∧ (∀ q, q ∈ table_tie → (pos (row 2 10 1 false) ≤ pos q)%Z)
  ∧ (∃ i, table_tie !! i = Some (row 2 10 1 false)
          ∧ ∀ j q, table_tie !! j = Some q → group_key q = key_of 10
                   → pos q = pos (row 2 10 1 false) → i ≤ j)
  ∧ (StronglySorted (λ a b, (id a < id b)%Z) table_tie
     → ∀ q, q ∈ table_tie → pos q = pos (row 2 10 1 false)
            → (id (row 2 10 1 false) ≤ id q)%Z)
  ∧ ∃ w r, run person_name org_name no_refusal true table_tie = (w, r)
           ∧ (key_of 10, table_tie) ∈ duplicate_groups (db w)
           ∧ ∀ keep', keep_position table_tie = Some keep'
                      → keep' = row 2 10 1 false.
Proof.
  split_and!; [compute_done | reflexivity | ..];
    apply (C2_survivor_min_pos_first_enumerated person_name org_name
             no_refusal table_tie (key_of 10) table_tie (row 2 10 1 false));
    first [compute_done | reflexivity].
Defined.

Lemma C10_witness :
  run person_name org_name no_refusal false table_merge
  = (world_merged, inr tt)
  ∧ (∀ m d, DryRunSummary m d ∈ stdout world_merged
            ∨ SuccessSummary m d ∈ stdout world_merged
            → m = length (duplicate_groups table_merge)
              ∧ d = sum_list_with (λ g, length g.2 - 1)
                      (duplicate_groups table_merge))
  ∧ (duplicate_groups table_merge ≠ []
     → last (stdout world_merged)
       = Some ((if false then DryRunSummary else SuccessSummary)
                 (length (duplicate_groups table_merge))
                 (sum_list_with (λ g, length g.2 - 1)
                    (duplicate_groups table_merge))))
  ∧ (duplicate_groups table_merge = []
     → stdout world_merged = preamble false ++ [NoDuplicatesFound])
  ∧ (false = false
     → length (deleted world_merged)
       = sum_list_with (λ g, length g.2 - 1) (duplicate_groups table_merge)).
Proof.
  split; [by vm_compute|].
  apply (C10_summary_counts person_name org_name no_refusal false table_merge
           world_merged).
  by vm_compute.
Defined.

(** ** Further properties at concrete tables *)

Example table_merge_dry_run :
  run person_name org_name no_refusal true table_merge = (world_dry, inr tt).
Proof. by vm_compute. Qed.

Example table_merge_least_pos_unique : least_pos_unique table_merge.
Proof.
  intros p q Hp Hq Hkey Hmin. unfold table_merge in Hp, Hq.
  assert (row 2 10 1 true ∈ table_merge) as H2 by compute_done.
  repeat (apply elem_of_cons in Hp as [->|Hp]);
    [..|by apply elem_of_nil in Hp];
    (repeat (apply elem_of_cons in Hq as [->|Hq]);
       [..|by apply elem_of_nil in Hq]);
    try reflexivity; try discriminate Hkey;
    destruct (Hmin _ H2 eq_refl) as [Hle1 Hle2];
    simpl in Hle1, Hle2; lia.
Qed.

Lemma X5_witness :
  NoDup (id <$> table_merge)
  ∧ run person_name org_name no_refusal false table_merge
    = (world_merged, inr tt)
  ∧ (row 2 10 1 true ∈ db world_merged
     ↔ row 2 10 1 true ∈ table_merge
       ∧ keep_position (group_of table_merge (row 2 10 1 true))
         = Some (row 2 10 1 true)).
Proof.
  split_and!; [compute_done | by vm_compute |].
  apply (X5_rows_left_are_the_rows_kept person_name org_name no_refusal
           table_merge world_merged (row 2 10 1 true));
    [compute_done | by vm_compute].
Defined.

Lemma X6_witness :
  NoDup (id <$> table_merge)
  ∧ run person_name org_name no_refusal false table_merge
    = (world_merged, inr tt)
  ∧ row 1 10 3 false ∈ table_merge
  ∧ ∃ q, q ∈ db world_merged
         ∧ group_key q = group_key (row 1 10 3 false)
         ∧ (pos q ≤ pos (row 1 10 3 false))%Z
         ∧ ∀ q', q' ∈ db world_merged
                 → group_key q' = group_key (row 1 10 3 false) → q' = q.
Proof.
  split_and!; [compute_done | by vm_compute | compute_done |].
  apply (X6_every_key_keeps_one_row person_name org_name no_refusal
           table_merge world_merged (row 1 10 3 false));
    [compute_done | by vm_compute | compute_done].
Defined.

Lemma X7_witness :
  NoDup (id <$> table_merge)
  ∧ run person_name org_name no_refusal false table_merge
    = (world_merged, inr tt)
  ∧ table_merge
    ≡ₚ db world_merged ++ deletions (duplicate_groups table_merge)
  ∧ deleted world_merged = id <$> deletions (duplicate_groups table_merge)
  ∧ NoDup (deleted world_merged)
  ∧ length (db world_merged) + length (deleted world_merged)
    = length table_merge
  ∧ ∀ m d, SuccessSummary m d ∈ stdout world_merged
           → length (db world_merged) + d = length table_merge.
Proof.
  split_and!; [compute_done | by vm_compute | ..];
    apply (X7_reported_deletions_are_the_rows_lost person_name org_name
             no_refusal table_merge world_merged);
    first [compute_done | by vm_compute].
Defined.

Lemma X8_witness :
  NoDup (id <$> table_merge)
  ∧ run person_name org_name refuses_3 true table_merge = (world_dry, inr tt)
  ∧ DryRunSummary 1 2 ∈ stdout world_dry
  ∧ (accepts refuses_3 (deletions (duplicate_groups table_merge))
     → ∃ w_real,
         run person_name org_name refuses_3 false table_merge
         = (w_real, inr tt)
         ∧ length (db w_real) + 2 = length table_merge
         ∧ length (deleted w_real) = 2
         ∧ SuccessSummary 1 2 ∈ stdout w_real)
  ∧ (¬ accepts refuses_3 (deletions (duplicate_groups table_merge))
     → ∃ w_real c,
         run person_name org_name refuses_3 false table_merge
         = (w_real, inl (DeleteError (id c)))
         ∧ db w_real = table_merge
         ∧ c ∈ deletions (duplicate_groups table_merge)
         ∧ refuses_3 c = true).
Proof.
  assert (DryRunSummary 1 2 ∈ stdout world_dry) as Hsum.
  { simpl. repeat first [by left | right]. }
  split_and!; [compute_done | by vm_compute | done | ..];
    apply (X8_dry_run_predicts_the_rows_lost person_name org_name refuses_3
             table_merge world_dry 1 2);
    first [compute_done | by vm_compute | done].
Defined.

Lemma X9_witness :
  table_merge ≡ₚ table_merge_reordered
  ∧ NoDup (id <$> table_merge)
  ∧ least_pos_unique table_merge
  ∧ ((∃ w e, run person_name org_name refuses_3 false table_merge
             = (w, inl e))
     ↔ (∃ w' e',
          run person_name org_name refuses_3 false table_merge_reordered
          = (w', inl e')))
  ∧ ∀ w, run person_name org_name refuses_3 false table_merge = (w, inr tt)
         → ∃ w', run person_name org_name refuses_3 false
                   table_merge_reordered
                 = (w', inr tt)
                 ∧ db w' ≡ₚ db w.
Proof.
  split_and!;
    [compute_done | compute_done | apply table_merge_least_pos_unique | ..];
    apply (X9_outcome_independent_of_order_without_ties person_name org_name
             refuses_3 false table_merge table_merge_reordered);
    first [compute_done | apply table_merge_least_pos_unique].
Defined.

Lemma X10_witness :
  find_duplicates (mkWorld table_violation [] [])
  = (mkWorld table_violation [] [],
     inr ([group_10] ++ (group_11.1, group_11.2) :: [group_12]))
  ∧ ∃ t1 p t2,
      db (mkWorld table_violation [] []) = t1 ++ p :: t2
      ∧ group_key p = group_11.1
      ∧ (group_11.1 ∉ group_key <$> t1)
      ∧ head group_11.2 = Some p
      ∧ (∀ g0, g0 ∈ [group_10] → g0.1 ∈ group_key <$> t1)
      ∧ (∀ g2, g2 ∈ [group_12] → (g2.1 ∉ group_key <$> (t1 ++ [p]))).
Proof.
  split; [by vm_compute|].
  apply (X10_groups_in_order_of_first_row (mkWorld table_violation [] [])
           (mkWorld table_violation [] []) [group_10] [group_12]
           group_11.1 group_11.2).
  by vm_compute.
Defined.

Lemma X11_witness :
  NoDup (id <$> table_merge)
  ∧ run person_name org_name no_refusal false table_merge
    = (world_merged, inr tt)
  ∧ group_key <$> db world_merged
    ≡ₚ remove_dups (group_key <$> table_merge)
  ∧ length (db world_merged)
    = length (remove_dups (group_key <$> table_merge)).
Proof.
  split_and!; [compute_done | by vm_compute | ..];
    apply (X11_one_row_per_distinct_key person_name org_name no_refusal
             table_merge world_merged);
    first [compute_done | by vm_compute].
Defined.

Lemma X12_witness :
  duplicate_groups table_merge = [] ++ group_merge :: []
  ∧ Forall (λ g' : Key * list Position,
              admin_positions_to_delete g'.2 = []) []
  ∧ accepts refuses_1 (deletions [])
  ∧ admin_positions_to_delete group_merge.2 = []
  ∧ refused_at refuses_1 (delete_positions group_merge.2)
      [row 3 10 2 false] (row 1 10 3 false)
  ∧ ∃ w w_inner,
      run person_name org_name refuses_1 false table_merge
      = (w, inl (DeleteError (id (row 1 10 3 false))))
      ∧ db w = table_merge
      ∧ last (stdout w)
        = Some (ErrorProcessingGroup group_merge.1
                  (DeleteError (id (row 1 10 3 false))))
      ∧ (∀ m d, SuccessSummary m d ∉ stdout w)
      ∧ deleted w
        = id <$> deletions [] ++ [row 3 10 2 false] ++ [row 1 10 3 false]
      ∧ _process_duplicates person_name org_name refuses_1 false
          (mkWorld table_merge [] [])
        = (w_inner, inl (DeleteError (id (row 1 10 3 false))))
      ∧ db w_inner
        = delete_all (deletions [] ++ [row 3 10 2 false]) table_merge.
Proof.
  assert (refused_at refuses_1 (delete_positions group_merge.2)
            [row 3 10 2 false] (row 1 10 3 false)) as Href.
  { split_and!; [by exists [] | by repeat constructor | reflexivity]. }
  split_and!;
    [by vm_compute | constructor | constructor | reflexivity | exact Href |].
  apply (X12_refused_delete_rolls_back person_name org_name refuses_1
           table_merge [] [] group_merge [row 3 10 2 false]
           (row 1 10 3 false));
    [by vm_compute | constructor | constructor | reflexivity | exact Href].
Defined.
